(** * MIDI songs to serial-port control: extraction, timeline and playback

    A shallow embedding of [mimi-midi-print.py] (the console player) and
    [mimi-midi-ser.py] (the serial player).

    Conventions of the embedding.
    - A decoded MIDI file is what [mido.MidiFile] hands to the program:
      its tracks, each a list of messages with a delta time in ticks, and
      the file-level [ticks_per_beat].
    - Python [float] seconds are modelled by exact rationals ([Q]), kept in
      lowest terms by [Qred], so that two equal times are equal terms.  The
      conversion of ticks is exact; the subtraction of the playback loop is
      rounded as binary64 arithmetic rounds it.
    - [self.note_queue] is a mutable deque shared by all the statements of
      [load_midi]: it is the state of a small state-and-exception monad in
      which an exception leaves the appends made so far in place. *)

From Stdlib Require Import ZArith QArith Qreduction Qround Qpower List Bool.
From Stdlib Require Import Lia Lqa.
From Stdlib Require Import Permutation Sorted.
From Stdlib Require String Ascii DecimalString DecimalZ DecimalPos.
Import ListNotations.

Open Scope Z_scope.

(** ** Messages and files, as decoded by mido *)

(** A mido message: its [type] with the attributes that type carries.
    [time] is the delta in ticks from the previous message of the track. *)
Inductive Message : Type :=
| NoteOn (time note velocity : Z)
| NoteOff (time note velocity : Z)
| SetTempo (time tempo : Z)
| Other (time : Z).

Definition msg_time (msg : Message) : Z :=
  match msg with
  | NoteOn t _ _ | NoteOff t _ _ | SetTempo t _ | Other t => t
  end.

Definition Track : Type := list Message.

(** [length_ok] records whether reading the [mid.length] property returns
    (mido raises on asynchronous, type 2, files). *)
Record MidiFile : Type := {
  tracks : list Track;
  ticks_per_beat : Z;
  length_ok : bool
}.

(** What [filepath] leads to: nothing, a file mido cannot decode, or a
    decoded file. *)
Inductive FileOnDisk : Type :=
| Absent
| Undecodable
| Decoded (mid : MidiFile).

(** ** Queue entries *)

Inductive State : Type := ON | OFF.

(** The tuple [(seconds, msg.note, state)] appended to the queue. *)
Definition Entry : Type := (Q * Z * State)%type.

Definition timestamp (e : Entry) : Q := fst (fst e).
Definition pitch (e : Entry) : Z := snd (fst e).
Definition edge (e : Entry) : State := snd e.

(** ** Statements that mutate the queue and may raise *)

Inductive Exn : Type := ZeroDivisionError | ValueError.

Inductive Res (A : Type) : Type :=
| Ok (a : A)
| Raise (e : Exn).
Arguments Ok {A} a.
Arguments Raise {A} e.

(** A computation over [self.note_queue]; the queue is returned in both
    outcomes, since an exception does not undo earlier appends. *)
Definition Py (A : Type) : Type := list Entry -> Res A * list Entry.

Definition ret {A : Type} (a : A) : Py A := fun q => (Ok a, q).

Definition bind {A B : Type} (m : Py A) (k : A -> Py B) : Py B :=
  fun q =>
    match m q with
    | (Ok a, q') => k a q'
    | (Raise e, q') => (Raise e, q')
    end.

Definition raise {A : Type} (e : Exn) : Py A := fun q => (Raise e, q).

(** [self.note_queue.append(x)] *)
Definition append (x : Entry) : Py unit := fun q => (Ok tt, q ++ [x]).

Declare Scope py_scope.
Delimit Scope py_scope with py.
Notation "x <- m ;; k" := (bind m (fun x => k))
  (at level 61, m at next level, right associativity) : py_scope.
Notation "m ;;; k" := (bind m (fun _ => k))
  (at level 61, right associativity) : py_scope.
Open Scope py_scope.

(** ** Library functions the program calls *)

(** Python's true division [a / b] of two integers. *)
Definition truediv (a b : Z) : Py Q :=
  if b =? 0 then raise ZeroDivisionError
  else ret (Qred (inject_Z a / inject_Z b)).

(** Modelled from the spec: [mido.tick2second], which is library code, as
    the spec's formula [seconds = ticks * (tempo / 1_000_000) / ticksPerBeat];
    the division by [ticks_per_beat] raises when it is zero. *)
Definition tick2second (tick ticks_per_beat tempo : Z) : Py Q :=
  if ticks_per_beat =? 0 then raise ZeroDivisionError
  else ret (Qred (inject_Z tick * (inject_Z tempo / 1000000)
                  / inject_Z ticks_per_beat)).

(** Python's [float] subtraction [a - b]: the exact difference rounded to the
    nearest number with a significand of 53 bits, ties going to the even
    significand, as IEEE 754 binary64 arithmetic does.  The exponent range is
    not modelled; the difference of two binary64 numbers never underflows,
    and one that overflows is not met with times in seconds. *)
Definition pow2 (e : Z) : Q := Qpower 2 e.

(** The integer nearest to [s], the even one of two equally near. *)
Definition round_half_even (s : Q) : Z :=
  let f := Qfloor s in
  match Qcompare (s - inject_Z f) (1 # 2) with
  | Lt => f
  | Gt => f + 1
  | Eq => if Z.even f then f else f + 1
  end.

(** The exponent [k] with [2^k <= x < 2^(k+1)], for [x > 0]. *)
Definition ilog2 (x : Q) : Z :=
  let k := Z.log2 (Qnum x) - Z.log2 (Zpos (Qden x)) in
  if Qle_bool (pow2 k) x then k else k - 1.

(** [x > 0] rounded to 53 significant bits. *)
Definition round53_pos (x : Q) : Q :=
  let e := ilog2 x - 52 in
  (inject_Z (round_half_even (x / pow2 e)) * pow2 e)%Q.

Definition round53 (x : Q) : Q :=
  let y := Qred x in
  match Qnum y with
  | Z0 => 0%Q
  | Zpos _ => Qred (round53_pos y)
  | Zneg _ => Qred (- round53_pos (- y))
  end.

Definition float_sub (a b : Q) : Q := round53 (a - b).

(** Half the distance between 1 and the next binary64 number, [2^-53]. *)
Definition ulp53 : Q := 1 # 9007199254740992.

(** [sorted(l, key=...)]: ascending and stable.  An element is placed in front
    of the first later element whose key is not smaller. *)
Section Sorted.
Context {A : Type} (key : A -> Q).

Fixpoint insert (x : A) (l : list A) : list A :=
  match l with
  | [] => [x]
  | y :: l' =>
      if Qle_bool (key x) (key y) then x :: y :: l' else y :: insert x l'
  end.

Definition sorted (l : list A) : list A := fold_right insert [] l.

(** Ascending order of the keys, and the test for a given key. *)
Definition key_le (a b : A) : Prop := (key a <= key b)%Q.
Definition same_key (t : Q) (a : A) : bool := Qeq_bool (key a) t.
End Sorted.

(** ** The console player, [mimi-midi-print.py] *)

Module Console.

Record MidiPlayer : Type := {
  note_queue : list Entry;
  playing : bool;
  thread : bool   (* whether a playback thread has been created *)
}.

(** [__init__] *)
Definition init : MidiPlayer :=
  {| note_queue := []; playing := false; thread := false |}.

(** The local variables of [load_midi] that survive a loop iteration. *)
Record Vars : Type := {
  track_time : Z;
  tempo : Z;
  total_notes : Z;
  valid_notes : Z
}.

(** The body of [for j, msg in enumerate(track)]. *)
Definition loop_body (mid : MidiFile) (msg : Message) (v : Vars) : Py Vars :=
  let track_time := track_time v + msg_time msg in
  tempo <- match msg with
           | SetTempo _ t => truediv 60000000 t ;;; ret t
           | _ => ret (tempo v)
           end ;;
  match msg with
  | NoteOn _ note velocity | NoteOff _ note velocity =>
      let total_notes := total_notes v + 1 in
      if (24 <=? note) && (note <=? 108) then
        seconds <- tick2second track_time (ticks_per_beat mid) tempo ;;
        let state :=
          if (match msg with NoteOn _ _ _ => true | _ => false end)
             && (0 <? velocity)
          then ON else OFF in
        append (seconds, note, state) ;;;
        ret {| track_time := track_time; tempo := tempo;
               total_notes := total_notes;
               valid_notes := valid_notes v + 1 |}
      else
        ret {| track_time := track_time; tempo := tempo;
               total_notes := total_notes;
               valid_notes := valid_notes v |}
  | _ =>
      ret {| track_time := track_time; tempo := tempo;
             total_notes := total_notes v;
             valid_notes := valid_notes v |}
  end.

(** [for j, msg in enumerate(track): ...] *)
Fixpoint for_msgs (mid : MidiFile) (track : Track) (v : Vars) : Py Vars :=
  match track with
  | [] => ret v
  | msg :: rest => v' <- loop_body mid msg v ;; for_msgs mid rest v'
  end.

(** [for i, track in enumerate(mid.tracks): track_time = 0; ...] *)
Fixpoint for_tracks (mid : MidiFile) (trs : list Track) (v : Vars) : Py Vars :=
  match trs with
  | [] => ret v
  | track :: rest =>
      v' <- for_msgs mid track
              {| track_time := 0; tempo := tempo v;
                 total_notes := total_notes v;
                 valid_notes := valid_notes v |} ;;
      for_tracks mid rest v'
  end.

(** What the caller and the console see of a load: [True] after the two
    counters were printed, or [False]. *)
Inductive Outcome : Type :=
| Loaded (total_notes valid_notes : Z)
| Failed.

Definition returned (o : Outcome) : bool :=
  match o with Loaded _ _ => true | Failed => false end.

(** The statements of the [try] block after [mido.MidiFile(filepath)]. *)
Definition try_block (mid : MidiFile) : Py Vars :=
  (if length_ok mid then ret tt else raise ValueError) ;;;
  for_tracks mid (tracks mid)
    {| track_time := 0; tempo := 500000;
       total_notes := 0; valid_notes := 0 |}.

Definition load_midi (file : FileOnDisk) (self : MidiPlayer)
  : Outcome * MidiPlayer :=
  match file with
  | Absent => (Failed, self)
  | Undecodable => (Failed, self)
  | Decoded mid =>
      match try_block mid (note_queue self) with
      | (Ok v, q) =>
          (Loaded (total_notes v) (valid_notes v),
           {| note_queue := sorted timestamp q;
              playing := playing self; thread := thread self |})
      | (Raise _, q) =>
          (Failed,
           {| note_queue := q;
              playing := playing self; thread := thread self |})
      end
  end.

End Console.

(** ** The serial player, [mimi-midi-ser.py] *)

Module Serial.

Record MidiPlayer : Type := {
  note_queue : list Entry;
  playing : bool;
  thread : bool;
  ser : bool;            (* whether a serial connection is held *)
  port : option nat;     (* the chosen port, if any *)
  baudrate : Z
}.

(** [__init__], given the port that was named or found and whether
    [serial.Serial] could open it. *)
Definition init (port : option nat) (baudrate : Z) (opened : bool)
  : MidiPlayer :=
  {| note_queue := []; playing := false; thread := false;
     ser := match port with Some _ => opened | None => false end;
     port := port; baudrate := baudrate |}.

Record Vars : Type := {
  track_time : Z;
  tempo : Z;
  total_notes : Z;
  valid_notes : Z
}.

(** The body of [for j, msg in enumerate(track)]. *)
Definition loop_body (mid : MidiFile) (msg : Message) (v : Vars) : Py Vars :=
  let track_time := track_time v + msg_time msg in
  tempo <- match msg with
           | SetTempo _ t => truediv 60000000 t ;;; ret t
           | _ => ret (tempo v)
           end ;;
  match msg with
  | NoteOn _ note velocity | NoteOff _ note velocity =>
      let total_notes := total_notes v + 1 in
      if (24 <=? note) && (note <=? 108) then
        seconds <- tick2second track_time (ticks_per_beat mid) tempo ;;
        let state :=
          if (match msg with NoteOn _ _ _ => true | _ => false end)
             && (0 <? velocity)
          then ON else OFF in
        append (seconds, note, state) ;;;
        ret {| track_time := track_time; tempo := tempo;
               total_notes := total_notes;
               valid_notes := valid_notes v + 1 |}
      else
        ret {| track_time := track_time; tempo := tempo;
               total_notes := total_notes;
               valid_notes := valid_notes v |}
  | _ =>
      ret {| track_time := track_time; tempo := tempo;
             total_notes := total_notes v;
             valid_notes := valid_notes v |}
  end.

Fixpoint for_msgs (mid : MidiFile) (track : Track) (v : Vars) : Py Vars :=
  match track with
  | [] => ret v
  | msg :: rest => v' <- loop_body mid msg v ;; for_msgs mid rest v'
  end.

Fixpoint for_tracks (mid : MidiFile) (trs : list Track) (v : Vars) : Py Vars :=
  match trs with
  | [] => ret v
  | track :: rest =>
      v' <- for_msgs mid track
              {| track_time := 0; tempo := tempo v;
                 total_notes := total_notes v;
                 valid_notes := valid_notes v |} ;;
      for_tracks mid rest v'
  end.

Inductive Outcome : Type :=
| Loaded (total_notes valid_notes : Z)
| Failed.

Definition try_block (mid : MidiFile) : Py Vars :=
  (if length_ok mid then ret tt else raise ValueError) ;;;
  for_tracks mid (tracks mid)
    {| track_time := 0; tempo := 500000;
       total_notes := 0; valid_notes := 0 |}.

Definition with_queue (self : MidiPlayer) (q : list Entry) : MidiPlayer :=
  {| note_queue := q; playing := playing self; thread := thread self;
     ser := ser self; port := port self; baudrate := baudrate self |}.

Definition load_midi (file : FileOnDisk) (self : MidiPlayer)
  : Outcome * MidiPlayer :=
  match file with
  | Absent => (Failed, self)
  | Undecodable => (Failed, self)
  | Decoded mid =>
      match try_block mid (note_queue self) with
      | (Ok v, q) =>
          (Loaded (total_notes v) (valid_notes v),
           with_queue self (sorted timestamp q))
      | (Raise _, q) => (Failed, with_queue self q)
      end
  end.

End Serial.

(** ** Playback: [_play_notes], [play] and [stop] of the console player *)

(** What the playback thread does that the outside can observe. *)
Inductive Action : Type :=
| Sleep (seconds : Q)                 (* [time.sleep(seconds)] *)
| Send (note : Z) (state : State).    (* [self._send_note(note, state)] *)

Module Playback.

(** The local and shared state the loop works on. *)
Record Loop : Type := {
  queue : list Entry;     (* [self.note_queue] *)
  last_time : Q
}.

(** [delay > 0] *)
Definition positive (delay : Q) : bool := negb (Qle_bool delay 0).

(** One pass through the body of [while self.playing or self.note_queue]. *)
Definition iteration (st : Loop) : list Action * Loop :=
  match queue st with
  | (timestamp, note, state) :: rest =>
      let delay := float_sub timestamp (last_time st) in
      ((if positive delay then [Sleep delay] else []) ++ [Send note state],
       {| queue := rest; last_time := timestamp |})
  | [] =>
      ([Sleep (1 # 1000)], st)
  end.

(** The clock.  [time.sleep(d)] takes [d] seconds and every other
    statement takes none. *)
Fixpoint elapse (now : Q) (acts : list Action) : list (Q * Action) :=
  match acts with
  | [] => []
  | Sleep d :: rest => (now, Sleep d) :: elapse (now + d)%Q rest
  | Send n s :: rest => (now, Send n s) :: elapse now rest
  end.

Fixpoint duration (acts : list Action) : Q :=
  match acts with
  | [] => 0%Q
  | Sleep d :: rest => (d + duration rest)%Q
  | Send _ _ :: rest => duration rest
  end.

(** [self.playing] as the thread reads it at clock [now], when [play()]
    ran before the thread started and [stop()] runs at [stop_at]. *)
Definition playing_at (stop_at now : Q) : bool := negb (Qle_bool stop_at now).

(** [_play_notes]: the actions with the clock at which each starts, and
    the clock at which the loop is left ([None]: out of fuel, the thread
    is still running). *)
Fixpoint run (fuel : nat) (stop_at now : Q) (st : Loop)
  : list (Q * Action) * option Q :=
  match fuel with
  | O => ([], None)
  | S fuel' =>
      if playing_at stop_at now || negb (match queue st with [] => true | _ => false end)
      then
        let '(acts, st') := iteration st in
        let '(trace, exit) :=
          run fuel' stop_at (now + duration acts)%Q st' in
        (elapse now acts ++ trace, exit)
      else ([], Some now)
  end.

Definition _play_notes (fuel : nat) (stop_at : Q) (q : list Entry)
  : list (Q * Action) * option Q :=
  run fuel stop_at 0%Q {| queue := q; last_time := 0%Q |}.

(** [play]: refuses an empty queue, otherwise sets the flag and starts
    the thread. *)
Definition play (self : Console.MidiPlayer) : Console.MidiPlayer :=
  match Console.note_queue self with
  | [] => self
  | _ => {| Console.note_queue := Console.note_queue self;
            Console.playing := true; Console.thread := true |}
  end.

(** The clock at which [stop()], called at [stop_at], returns: at once if
    the thread is no longer alive, otherwise when the thread ends or when
    [join(timeout=1.0)] gives up, whichever is first. *)
Definition stop_returns (stop_at exit : Q) : Q :=
  if Qle_bool exit stop_at then stop_at
  else if Qle_bool exit (stop_at + 1) then exit
  else (stop_at + 1)%Q.

(** The [Send]s of a trace, with their clock. *)
Definition sends (trace : list (Q * Action)) : list (Q * Z * State) :=
  flat_map (fun ta => match snd ta with
                      | Send n s => [(fst ta, n, s)]
                      | Sleep _ => []
                      end) trace.

End Playback.

(** ** Reading the extraction off the file, message by message *)

Definition in_range (n : Z) : bool := (24 <=? n) && (n <=? 108).

Definition is_note (msg : Message) : bool :=
  match msg with NoteOn _ _ _ | NoteOff _ _ _ => true | _ => false end.

(** The tempo after a message. *)
Definition new_tempo (tempo : Z) (msg : Message) : Z :=
  match msg with SetTempo _ t => t | _ => tempo end.

(** The tempo in force after the messages [seen], starting from [tempo0]:
    that of the last set-tempo message among them, if any. *)
Definition tempo_after (tempo0 : Z) (seen : list Message) : Z :=
  fold_left new_tempo seen tempo0.

(** The position in ticks after the messages [seen] of a track. *)
Definition ticks_after (seen : list Message) : Z :=
  fold_right (fun msg acc => msg_time msg + acc) 0 seen.

(** The conversion formula, on rationals. *)
Definition seconds_of (ticks tempo tpb : Z) : Q :=
  (inject_Z ticks * (inject_Z tempo / 1000000) / inject_Z tpb)%Q.

(** Edge classification in the spec's words: [ON] exactly for a note-on
    with velocity above zero. *)
Definition classify (msg : Message) : State :=
  match msg with
  | NoteOn _ _ velocity => if 0 <? velocity then ON else OFF
  | _ => OFF
  end.

(** The entry a message gives rise to, if any, when it is met at tick
    position [ticks] under tempo [tempo]. *)
Definition entry_of (tpb ticks tempo : Z) (msg : Message) : list Entry :=
  match msg with
  | NoteOn _ n _ | NoteOff _ n _ =>
      if in_range n
      then [(Qred (seconds_of ticks tempo tpb), n, classify msg)]
      else []
  | _ => []
  end.

(** The entries of the messages [rest] of a track, in order, where [before]
    are the messages of the same track already passed and [tempo0] is the
    tempo the track starts under. *)
Fixpoint track_entries (tpb tempo0 : Z) (before rest : list Message)
  : list Entry :=
  match rest with
  | [] => []
  | msg :: rest' =>
      entry_of tpb (ticks_after (before ++ [msg]))
               (tempo_after tempo0 (before ++ [msg])) msg
      ++ track_entries tpb tempo0 (before ++ [msg]) rest'
  end.

(** The code's scoping: a track starts under the tempo in force at the end
    of the tracks [earlier]. *)
Fixpoint file_entries (tpb : Z) (earlier rest : list Track) : list Entry :=
  match rest with
  | [] => []
  | track :: rest' =>
      track_entries tpb (tempo_after 500000 (concat earlier)) [] track
      ++ file_entries tpb (earlier ++ [track]) rest'
  end.

Definition extracted (mid : MidiFile) : list Entry :=
  file_entries (ticks_per_beat mid) [] (tracks mid).

(** The spec's scoping: every track starts under the default tempo and
    sees only its own set-tempo messages. *)
Definition extracted_track_scoped (mid : MidiFile) : list Entry :=
  flat_map (track_entries (ticks_per_beat mid) 500000 []) (tracks mid).

(** Notes of a file, in file order. *)
Definition note_messages (mid : MidiFile) : list Message :=
  filter is_note (concat (tracks mid)).

Definition count_notes (msgs : list Message) : Z :=
  Z.of_nat (length (filter is_note msgs)).

Definition note_of (msg : Message) : Z :=
  match msg with NoteOn _ n _ | NoteOff _ n _ => n | _ => 0 end.

(** A message on which the loop body raises: a set-tempo of value zero
    (the BPM print divides by it) or an in-range note when
    [ticks_per_beat] is zero (the conversion divides by it). *)
Definition msg_fails (tpb : Z) (msg : Message) : bool :=
  match msg with
  | SetTempo _ t => t =? 0
  | NoteOn _ n _ | NoteOff _ n _ => in_range n && (tpb =? 0)
  | Other _ => false
  end.

(** The messages of a track in front of the first one that raises. *)
Fixpoint sound_msgs (tpb : Z) (track : Track) : Track :=
  match track with
  | [] => []
  | msg :: rest =>
      if msg_fails tpb msg then [] else msg :: sound_msgs tpb rest
  end.

(** The tracks, cut off at the first message that raises. *)
Fixpoint sound_tracks (tpb : Z) (trs : list Track) : list Track :=
  match trs with
  | [] => []
  | track :: rest =>
      if existsb (msg_fails tpb) track then [sound_msgs tpb track]
      else track :: sound_tracks tpb rest
  end.

Definition file_fails (mid : MidiFile) : bool :=
  negb (length_ok mid)
  || existsb (existsb (msg_fails (ticks_per_beat mid))) (tracks mid).

(** What a failed load leaves appended to the queue. *)
Definition partial_entries (mid : MidiFile) : list Entry :=
  if length_ok mid
  then file_entries (ticks_per_beat mid) []
         (sound_tracks (ticks_per_beat mid) (tracks mid))
  else [].

(** A message as a standard MIDI file can hold it: a non-negative delta,
    seven-bit note and velocity, a 24-bit tempo. *)
Definition valid_msg (msg : Message) : Prop :=
  0 <= msg_time msg /\
  match msg with
  | NoteOn _ n v | NoteOff _ n v => 0 <= n <= 127 /\ 0 <= v <= 127
  | SetTempo _ t => 0 <= t < 2 ^ 24
  | Other _ => True
  end.

(** A valid decoded file: positive [ticks_per_beat], valid messages. *)
Definition valid_file (mid : MidiFile) : Prop :=
  0 < ticks_per_beat mid /\ Forall (Forall valid_msg) (tracks mid).

(** The local variables of the serial [load_midi] read as those of the
    console one, and the same for an outcome. *)
Definition to_console (v : Serial.Vars) : Console.Vars :=
  {| Console.track_time := Serial.track_time v;
     Console.tempo := Serial.tempo v;
     Console.total_notes := Serial.total_notes v;
     Console.valid_notes := Serial.valid_notes v |}.

Definition res_to_console (r : Res Serial.Vars * list Entry)
  : Res Console.Vars * list Entry :=
  match r with
  | (Ok v, q) => (Ok (to_console v), q)
  | (Raise e, q) => (Raise e, q)
  end.

Definition same_outcome (oc : Console.Outcome) (os : Serial.Outcome) : Prop :=
  match oc, os with
  | Console.Loaded t v, Serial.Loaded t' v' => t = t' /\ v = v'
  | Console.Failed, Serial.Failed => True
  | _, _ => False
  end.

(** ** Reading the playback off the queue *)

(** The iterations that take the entries of [q] off the queue, one after the
    other from clock [now]: their stamped actions, the clock and the
    [last_time] they end with. *)
Fixpoint drained (now last : Q) (q : list Entry)
  : list (Q * Action) * Q * Q :=
  match q with
  | [] => ([], now, last)
  | e :: rest =>
      let '(acts, st') :=
        Playback.iteration {| Playback.queue := e :: rest;
                              Playback.last_time := last |} in
      let '(trace, now', last') :=
        drained (now + Playback.duration acts)%Q (Playback.last_time st') rest in
      (Playback.elapse now acts ++ trace, now', last')
  end.

(** A sleep of negative length does not occur. *)
Definition sleep_ok (a : Action) : Prop :=
  match a with Sleep d => (0 <= d)%Q | Send _ _ => True end.

(** What was sent, without the clock. *)
Definition sent (x : Q * Z * State) : Z * State := (snd (fst x), snd x).
Definition queued (e : Entry) : Z * State := (pitch e, edge e).

(** ** Scenario files *)

Definition scenario1 : FileOnDisk :=
  Decoded {| tracks := [[NoteOn 0 60 64; NoteOff 480 60 0]];
             ticks_per_beat := 480; length_ok := true |}.

(** Four notes at tick 0 with pitches 23, 24, 108 and 109. *)
Definition boundary_file : MidiFile :=
  {| tracks := [[NoteOn 0 23 64; NoteOn 0 24 64; NoteOn 0 108 64;
                 NoteOn 0 109 64]];
     ticks_per_beat := 480; length_ok := true |}.

(** Track A only changes the tempo; track B holds one note 480 ticks in. *)
Definition two_track_file : MidiFile :=
  {| tracks := [[SetTempo 0 1000000]; [NoteOn 480 60 64]];
     ticks_per_beat := 480; length_ok := true |}.

(** The same file with the tempo message of track A replaced. *)
Definition two_track_file_plain : MidiFile :=
  {| tracks := [[Other 0]; [NoteOn 480 60 64]];
     ticks_per_beat := 480; length_ok := true |}.

(** A tempo change to 1000000 in front of a note 480 ticks later. *)
Definition scenario3 : MidiFile :=
  {| tracks := [[SetTempo 0 1000000; NoteOn 480 60 64]];
     ticks_per_beat := 480; length_ok := true |}.

(** A note followed by a set-tempo message of value zero. *)
Definition zero_tempo_file : MidiFile :=
  {| tracks := [[NoteOn 0 60 64; SetTempo 0 0]];
     ticks_per_beat := 480; length_ok := true |}.

(** A file whose header gives a negative [ticks_per_beat]. *)
Definition negative_tpb_file : MidiFile :=
  {| tracks := [[NoteOn 480 60 64]];
     ticks_per_beat := -480; length_ok := true |}.

(** What every entry of a timeline is to satisfy. *)
Definition entry_ok (e : Entry) : Prop :=
  24 <= pitch e <= 108 /\ (0 <= timestamp e)%Q.

(** Two entries that agree up to the representation of the time. *)
Definition entry_eqv (e e' : Entry) : Prop :=
  (timestamp e == timestamp e')%Q /\ pitch e = pitch e' /\ edge e = edge e'.

(** The messages on which the loop body raises, in words. *)
Definition zero_tempo (msg : Message) : Prop := exists t, msg = SetTempo t 0.

Definition unconvertible (tpb : Z) (msg : Message) : Prop :=
  tpb = 0 /\ is_note msg = true /\ 24 <= note_of msg <= 108.

Definition raises_somewhere (mid : MidiFile) : Prop :=
  length_ok mid = false \/
  exists track msg,
    In track (tracks mid) /\ In msg track /\
    (zero_tempo msg \/ unconvertible (ticks_per_beat mid) msg).

(** ** The sinks: [_send_note] of both programs *)

(** What a sink does that the outside can observe. *)
Inductive Output : Type :=
| Print (text : String.string)     (* a line on the console *)
| PrintError                       (* the line that reports a [SerialException] *)
| Write (data : String.string).    (* [self.ser.write(data)] *)

Module Text.
Import Stdlib.Strings.String.

(** [f"{note}"] for an integer: its decimal digits, with a sign if negative. *)
Definition decimal (n : Z) : string :=
  DecimalString.NilZero.string_of_int (Z.to_int n).

(** [f"{state}"] *)
Definition state_text (s : State) : string :=
  match s with ON => "ON"%string | OFF => "OFF"%string end.

Definition carriage_return : string :=
  String (Ascii.ascii_of_nat 13) EmptyString.

End Text.

Module ConsoleSink.
Import Stdlib.Strings.String.

(** The line [f"{state}{note}"]. *)
Definition line (note : Z) (state : State) : string :=
  (Text.state_text state ++ Text.decimal note)%string.

(** [_send_note] of the console player: it only prints. *)
Definition _send_note (note : Z) (state : State) : list Output :=
  [Print (line note state)].

End ConsoleSink.

Module SerialSink.
Import Stdlib.Strings.String.

(** [f"on {note}\r".encode('utf-8')]; the text is ASCII. *)
Definition command (note : Z) : string :=
  ("on " ++ Text.decimal note ++ Text.carriage_return)%string.

(** What [print(command)] shows of these bytes. *)
Definition shown (note : Z) : string :=
  ("b'on " ++ Text.decimal note ++ "\r'")%string.

(** The console line used when no connection is open. *)
Definition fallback (note : Z) : string :=
  ("ON " ++ Text.decimal note)%string.

(** [_send_note] of the serial player.  [Serial.ser] stands for
    [self.ser and self.ser.is_open]; [write_ok] says whether
    [self.ser.write] returns or raises [SerialException].  Nothing at all is
    done for a state other than ["ON"]. *)
Definition _send_note (self : Serial.MidiPlayer) (write_ok : bool)
  (note : Z) (state : State) : list Output :=
  match state with
  | ON =>
      if Serial.ser self then
        if write_ok then [Write (command note); Print (shown note)]
        else [PrintError]
      else [Print (fallback note)]
  | OFF => []
  end.

(** [close]: the connection, if open, is closed. *)
Definition close (self : Serial.MidiPlayer) : Serial.MidiPlayer :=
  {| Serial.note_queue := Serial.note_queue self;
     Serial.playing := Serial.playing self;
     Serial.thread := Serial.thread self;
     Serial.ser := false;
     Serial.port := Serial.port self;
     Serial.baudrate := Serial.baudrate self |}.

End SerialSink.

(** ** [_play_notes] of the serial player *)

Module SerialPlayback.

(** One pass through the body of [while self.playing or self.note_queue]. *)
Definition iteration (st : Playback.Loop) : list Action * Playback.Loop :=
  match Playback.queue st with
  | (timestamp, note, state) :: rest =>
      let delay := float_sub timestamp (Playback.last_time st) in
      ((if Playback.positive delay then [Sleep delay] else [])
       ++ [Send note state],
       {| Playback.queue := rest; Playback.last_time := timestamp |})
  | [] =>
      ([Sleep (1 # 1000)], st)
  end.

Fixpoint run (fuel : nat) (stop_at now : Q) (st : Playback.Loop)
  : list (Q * Action) * option Q :=
  match fuel with
  | O => ([], None)
  | S fuel' =>
      if Playback.playing_at stop_at now
         || negb (match Playback.queue st with [] => true | _ => false end)
      then
        let '(acts, st') := iteration st in
        let '(trace, exit) :=
          run fuel' stop_at (now + Playback.duration acts)%Q st' in
        (Playback.elapse now acts ++ trace, exit)
      else ([], Some now)
  end.

Definition _play_notes (fuel : nat) (stop_at : Q) (q : list Entry)
  : list (Q * Action) * option Q :=
  run fuel stop_at 0%Q {| Playback.queue := q; Playback.last_time := 0%Q |}.

End SerialPlayback.

(** ** A whole run: the main program's opening, and the sink outputs *)

(** The main program up to [player.play()]: a new player, the load, and
    [play()] only if the load returned [True]. *)
Definition main_start (file : FileOnDisk) : Console.MidiPlayer :=
  let (outcome, player) := Console.load_midi file Console.init in
  if Console.returned outcome then Playback.play player else player.

(** The outputs of the console sink for the sends of a trace. *)
Definition console_outputs (sent : list (Q * Z * State)) : list Output :=
  flat_map (fun x => ConsoleSink._send_note (snd (fst x)) (snd x)) sent.

(** The outputs of the serial sink for the sends of a trace, where [ok k]
    says whether a write at the [k]-th send returns. *)
Fixpoint serial_outputs (self : Serial.MidiPlayer) (ok : nat -> bool)
  (k : nat) (sent : list (Q * Z * State)) : list Output :=
  match sent with
  | [] => []
  | x :: rest =>
      SerialSink._send_note self (ok k) (snd (fst x)) (snd x)
      ++ serial_outputs self ok (S k) rest
  end.

(** What reached the port, and what reached the console. *)
Definition written (outs : list Output) : list String.string :=
  flat_map (fun o => match o with Write d => [d] | _ => [] end) outs.

Definition printed (outs : list Output) : list String.string :=
  flat_map (fun o => match o with Print t => [t] | _ => [] end) outs.

(** How many times a failed write was reported. *)
Definition reported (outs : list Output) : nat :=
  length (filter (fun o => match o with PrintError => true | _ => false end)
                 outs).

(** The pitches of the [ON] entries of a queue, in order. *)
Definition on_notes (q : list Entry) : list Z :=
  flat_map (fun e => match edge e with ON => [pitch e] | OFF => [] end) q.

(** A send in step with a queue entry: the same note and state, and a clock
    that is not before the entry's time, or that is at the entry's time, in
    both cases up to one part in [2^53], which is what the rounding of the
    delays can add up to. *)
Definition not_early (s : Q * Z * State) (e : Entry) : Prop :=
  sent s = queued e /\ (timestamp e * (1 - ulp53) <= timestamp s)%Q.

Definition on_time (s : Q * Z * State) (e : Entry) : Prop :=
  sent s = queued e /\
  (timestamp e * (1 - ulp53) <= timestamp s <= timestamp e * (1 + ulp53))%Q.

(** A track without set-tempo messages. *)
Definition no_tempo_change (track : Track) : Prop :=
  Forall (fun m => forall t tp, m <> SetTempo t tp) track.

(** ** Sanity checks of the embedding *)

Example scenario1_run :
  Console.load_midi scenario1 Console.init
  = (Console.Loaded 2 2,
     {| Console.note_queue := [(0%Q, 60, ON); ((1 # 2)%Q, 60, OFF)];
        Console.playing := false; Console.thread := false |}).
Proof. reflexivity. Qed.

Example play_two :
  Playback._play_notes 10 1 [(0%Q, 60, ON); (5%Q, 60, OFF)]
  = ([(0%Q, Send 60 ON); (0%Q, Sleep (5 - 0)); ((0 + 0 + (5 - 0 + 0))%Q, Send 60 OFF)],
     Some (0 + 0 + (5 - 0 + 0))%Q).
Proof. vm_compute. reflexivity. Qed.

(** ** The loops of [load_midi], computed

    Each loop is characterised by what it leaves in the queue and in the
    local variables, on the returning and on the raising path. *)

Section Loops.
Variable mid : MidiFile.
Let tpb := ticks_per_beat mid.

Lemma ticks_after_snoc before msg :
  ticks_after (before ++ [msg]) = ticks_after before + msg_time msg.
Proof.
  unfold ticks_after. induction before as [|m before IH]; simpl.
  - lia.
  - rewrite IH. lia.
Qed.

Lemma tempo_after_snoc tempo0 before msg :
  tempo_after tempo0 (before ++ [msg])
  = new_tempo (tempo_after tempo0 before) msg.
Proof. unfold tempo_after. now rewrite fold_left_app. Qed.

Lemma tempo_after_app tempo0 l1 l2 :
  tempo_after tempo0 (l1 ++ l2) = tempo_after (tempo_after tempo0 l1) l2.
Proof. unfold tempo_after. now rewrite fold_left_app. Qed.

Lemma loop_body_eq msg v q :
  Console.loop_body mid msg v q =
    let ticks := Console.track_time v + msg_time msg in
    let tempo := new_tempo (Console.tempo v) msg in
    if msg_fails tpb msg then (Raise ZeroDivisionError, q)
    else (Ok {| Console.track_time := ticks;
                Console.tempo := tempo;
                Console.total_notes :=
                  Console.total_notes v + (if is_note msg then 1 else 0);
                Console.valid_notes :=
                  Console.valid_notes v
                  + Z.of_nat (length (entry_of tpb ticks tempo msg)) |},
          q ++ entry_of tpb ticks tempo msg).
Proof.
  unfold Console.loop_body, truediv, tick2second, bind, ret, raise, append,
    entry_of, msg_fails, in_range, classify, seconds_of; subst tpb.
  destruct msg as [t n vel|t n vel|t tp|t];
    cbn -[Qred Qmult Qdiv inject_Z Z.add Z.leb Z.ltb Z.eqb].
  - destruct ((24 <=? n) && (n <=? 108));
      cbn -[Qred Qmult Qdiv inject_Z Z.add Z.leb Z.ltb Z.eqb].
    + destruct (ticks_per_beat mid =? 0); [reflexivity|].
      destruct (0 <? vel); reflexivity.
    + rewrite Z.add_0_r, app_nil_r. reflexivity.
  - destruct ((24 <=? n) && (n <=? 108));
      cbn -[Qred Qmult Qdiv inject_Z Z.add Z.leb Z.ltb Z.eqb].
    + destruct (ticks_per_beat mid =? 0); reflexivity.
    + rewrite Z.add_0_r, app_nil_r. reflexivity.
  - destruct (tp =? 0); [reflexivity|].
    rewrite !Z.add_0_r, app_nil_r. reflexivity.
  - rewrite !Z.add_0_r, app_nil_r. reflexivity.
Qed.

Lemma count_notes_cons msg msgs :
  count_notes (msg :: msgs)
  = (if is_note msg then 1 else 0) + count_notes msgs.
Proof.
  unfold count_notes. simpl. destruct (is_note msg); simpl length; lia.
Qed.

Lemma for_msgs_eq tempo0 rest : forall before v q,
  Console.track_time v = ticks_after before ->
  Console.tempo v = tempo_after tempo0 before ->
  Console.for_msgs mid rest v q =
    let good := sound_msgs tpb rest in
    let q' := q ++ track_entries tpb tempo0 before good in
    if existsb (msg_fails tpb) rest then (Raise ZeroDivisionError, q')
    else (Ok {| Console.track_time := ticks_after (before ++ rest);
                Console.tempo := tempo_after tempo0 (before ++ rest);
                Console.total_notes :=
                  Console.total_notes v + count_notes rest;
                Console.valid_notes :=
                  Console.valid_notes v
                  + Z.of_nat (length (track_entries tpb tempo0 before rest))
             |}, q').
Proof.
  induction rest as [|msg rest IH]; intros before v q Ht Hp.
  - simpl. rewrite !app_nil_r, <- Ht, <- Hp. unfold ret, count_notes. simpl.
    rewrite !Z.add_0_r. destruct v; reflexivity.
  - cbn [Console.for_msgs]. unfold bind at 1. rewrite loop_body_eq.
    cbn zeta. cbn [existsb sound_msgs].
    destruct (msg_fails tpb msg) eqn:Hf.
    + simpl. rewrite app_nil_r. reflexivity.
    + cbn [orb].
      rewrite IH with (before := before ++ [msg]).
      2:{ simpl. now rewrite ticks_after_snoc, Ht. }
      2:{ simpl. now rewrite tempo_after_snoc, Hp. }
      cbn zeta. cbn [track_entries Console.total_notes Console.valid_notes].
      rewrite ticks_after_snoc, tempo_after_snoc, <- Ht, <- Hp.
      rewrite <- !app_assoc. cbn [app].
      rewrite count_notes_cons, length_app, Nat2Z.inj_add, !Z.add_assoc.
      reflexivity.
Qed.

Lemma for_tracks_eq trs : forall earlier v q,
  Console.tempo v = tempo_after 500000 (concat earlier) ->
  Console.for_tracks mid trs v q =
    let q' := q ++ file_entries tpb earlier (sound_tracks tpb trs) in
    if existsb (existsb (msg_fails tpb)) trs
    then (Raise ZeroDivisionError, q')
    else (Ok {| Console.track_time :=
                  match rev trs with
                  | [] => Console.track_time v
                  | last :: _ => ticks_after last
                  end;
                Console.tempo :=
                  tempo_after 500000 (concat (earlier ++ trs));
                Console.total_notes :=
                  Console.total_notes v + count_notes (concat trs);
                Console.valid_notes :=
                  Console.valid_notes v
                  + Z.of_nat (length (file_entries tpb earlier trs)) |},
          q').
Proof.
  induction trs as [|track trs IH]; intros earlier v q Hp.
  - simpl. rewrite !app_nil_r, <- Hp. unfold ret, count_notes. simpl.
    rewrite !Z.add_0_r. destruct v; reflexivity.
  - cbn [Console.for_tracks]. unfold bind at 1.
    rewrite for_msgs_eq with (tempo0 := tempo_after 500000 (concat earlier))
                             (before := []); [|reflexivity|exact Hp].
    cbn zeta. cbn [existsb sound_tracks].
    destruct (existsb (msg_fails tpb) track) eqn:Hf.
    + simpl. rewrite app_nil_r. reflexivity.
    + cbn [orb].
      assert (Hsound : sound_msgs tpb track = track).
      { clear -Hf. induction track as [|m tr IHt]; simpl in *; [reflexivity|].
        apply orb_false_iff in Hf as [Hm Hr]. rewrite Hm, IHt; auto. }
      rewrite Hsound.
      rewrite IH with (earlier := earlier ++ [track]).
      2:{ cbn [Console.tempo app]. rewrite concat_app. simpl.
          rewrite app_nil_r. now rewrite tempo_after_app. }
      cbn zeta.
      cbn [file_entries Console.total_notes Console.valid_notes
           Console.track_time app].
      rewrite <- !app_assoc. cbn [app].
      replace (count_notes (concat (track :: trs)))
        with (count_notes track + count_notes (concat trs)).
      2:{ unfold count_notes. simpl. rewrite filter_app, length_app. lia. }
      rewrite length_app, Nat2Z.inj_add, !Z.add_assoc.
      destruct (existsb (existsb (msg_fails tpb)) trs); [reflexivity|].
      f_equal. f_equal.
      simpl. destruct (rev trs) eqn:Hr.
      * apply (f_equal (@rev _)) in Hr. rewrite rev_involutive in Hr.
        subst trs. reflexivity.
      * reflexivity.
Qed.

End Loops.

(** ** [sorted]: ascending, a permutation, stable, and the only such list *)

Section SortedFacts.
Context {A : Type} (key : A -> Q).

Lemma insert_perm x l : Permutation (x :: l) (insert key x l).
Proof.
  induction l as [|y l IH]; simpl; [reflexivity|].
  destruct (Qle_bool (key x) (key y)); [reflexivity|].
  rewrite perm_swap. now constructor.
Qed.

Lemma sorted_perm l : Permutation l (sorted key l).
Proof.
  induction l as [|x l IH]; simpl; [constructor|].
  rewrite <- insert_perm. now constructor.
Qed.

Lemma insert_ascending x l :
  StronglySorted (key_le key) l -> StronglySorted (key_le key) (insert key x l).
Proof.
  induction l as [|y l IH]; intros Hs; simpl.
  - repeat constructor.
  - inversion Hs as [|? ? Hl Hy]; subst.
    destruct (Qle_bool (key x) (key y)) eqn:E.
    + apply Qle_bool_iff in E. constructor; [exact Hs|].
      constructor; [exact E|].
      eapply Forall_impl; [|exact Hy]. intros a Ha. unfold key_le in *.
      now apply Qle_trans with (key y).
    + assert (Hyx : (key y <= key x)%Q).
      { apply Qnot_lt_le. intros Hlt. apply Qlt_le_weak in Hlt.
        apply Qle_bool_iff in Hlt. congruence. }
      constructor; [now apply IH|].
      apply (Permutation_Forall (insert_perm x l)).
      constructor; assumption.
Qed.

Lemma sorted_ascending l : StronglySorted (key_le key) (sorted key l).
Proof.
  induction l as [|x l IH]; simpl; [constructor|].
  now apply insert_ascending.
Qed.

Lemma insert_stable t x l :
  filter (same_key key t) (insert key x l) = filter (same_key key t) (x :: l).
Proof.
  induction l as [|y l IH]; [reflexivity|].
  cbn [insert]. destruct (Qle_bool (key x) (key y)) eqn:E; [reflexivity|].
  cbn [filter] in *. rewrite IH.
  destruct (same_key key t x) eqn:Ex; [|reflexivity].
  destruct (same_key key t y) eqn:Ey; [|reflexivity].
  exfalso. unfold same_key in *.
  apply Qeq_bool_iff in Ex, Ey.
  assert (Hle : (key x <= key y)%Q) by (rewrite Ex, Ey; apply Qle_refl).
  apply Qle_bool_iff in Hle. congruence.
Qed.

Lemma sorted_stable t l :
  filter (same_key key t) (sorted key l) = filter (same_key key t) l.
Proof.
  induction l as [|x l IH]; [reflexivity|].
  cbn [sorted fold_right]. rewrite insert_stable. cbn [filter].
  fold (sorted key l). now rewrite IH.
Qed.

(** An ascending list is determined by its groups of equal keys, so any
    stable ascending sort returns what [sorted] returns. *)
Lemma ascending_stable_unique : forall l1 l2,
  StronglySorted (key_le key) l1 -> StronglySorted (key_le key) l2 ->
  (forall t, filter (same_key key t) l1 = filter (same_key key t) l2) ->
  l1 = l2.
Proof.
  assert (Hhead : forall x l y l',
    StronglySorted (key_le key) (x :: l) ->
    (forall t, filter (same_key key t) (x :: l) = filter (same_key key t) (y :: l')) ->
    (key x <= key y)%Q).
  { intros x l y l' Hs Hf.
    assert (Hin : In y (filter (same_key key (key y)) (x :: l))).
    { rewrite Hf. cbn [filter]. unfold same_key at 1.
      rewrite (proj2 (Qeq_bool_iff _ _) (Qeq_refl _)). now left. }
    apply filter_In in Hin as [Hin _].
    inversion Hs as [|? ? _ Hall]; subst.
    destruct Hin as [->|Hin]; [apply Qle_refl|].
    rewrite Forall_forall in Hall. exact (Hall _ Hin). }
  induction l1 as [|x l1 IH]; intros l2 H1 H2 Hf.
  - destruct l2 as [|y l2]; [reflexivity|].
    specialize (Hf (key y)). cbn [filter] in Hf. unfold same_key at 1 in Hf.
    rewrite (proj2 (Qeq_bool_iff _ _) (Qeq_refl _)) in Hf. discriminate.
  - destruct l2 as [|y l2].
    + specialize (Hf (key x)). cbn [filter] in Hf. unfold same_key at 1 in Hf.
      rewrite (proj2 (Qeq_bool_iff _ _) (Qeq_refl _)) in Hf. discriminate.
    + assert (Hxy : (key x == key y)%Q).
      { apply Qle_antisym.
        - eapply Hhead; eauto.
        - eapply Hhead; [exact H2|]. intros t. symmetry. apply Hf. }
      assert (Htl : forall t, filter (same_key key t) l1 = filter (same_key key t) l2
                              /\ (same_key key t x = true -> x = y)).
      { intros t. specialize (Hf t). cbn [filter] in Hf.
        assert (Heq : same_key key t y = same_key key t x).
        { unfold same_key. destruct (Qeq_bool (key x) t) eqn:Ex.
          - apply Qeq_bool_iff in Ex. apply Qeq_bool_iff.
            apply Qeq_trans with (key x); [now apply Qeq_sym|exact Ex].
          - destruct (Qeq_bool (key y) t) eqn:Ey; [|reflexivity].
            apply Qeq_bool_iff in Ey.
            assert (Ex' : (key x == t)%Q)
              by (apply Qeq_trans with (key y); assumption).
            apply Qeq_bool_iff in Ex'. congruence. }
        rewrite Heq in Hf. destruct (same_key key t x).
        - injection Hf as -> Hf. split; auto.
        - split; [exact Hf|discriminate]. }
      assert (x = y) as ->.
      { apply (proj2 (Htl (key x))). unfold same_key.
        apply Qeq_bool_iff. apply Qeq_refl. }
      f_equal. apply IH.
      * now inversion H1.
      * now inversion H2.
      * intros t. apply (Htl t).
Qed.

Lemma sorted_unique l l' :
  StronglySorted (key_le key) l' ->
  (forall t, filter (same_key key t) l' = filter (same_key key t) l) ->
  l' = sorted key l.
Proof.
  intros Hs Hf. apply ascending_stable_unique; auto using sorted_ascending.
  intros t. now rewrite sorted_stable.
Qed.

End SortedFacts.

(** ** [load_midi], computed *)

Lemma sound_msgs_all tpb track :
  existsb (msg_fails tpb) track = false -> sound_msgs tpb track = track.
Proof.
  induction track as [|m tr IH]; simpl; [reflexivity|].
  intros H. apply orb_false_iff in H as [Hm Hr]. now rewrite Hm, IH.
Qed.

Lemma sound_tracks_all tpb trs :
  existsb (existsb (msg_fails tpb)) trs = false -> sound_tracks tpb trs = trs.
Proof.
  induction trs as [|tr trs IH]; simpl; [reflexivity|].
  intros H. apply orb_false_iff in H as [Hm Hr]. now rewrite Hm, IH.
Qed.

Lemma load_midi_eq mid self :
  Console.load_midi (Decoded mid) self =
    if file_fails mid
    then (Console.Failed,
          {| Console.note_queue := Console.note_queue self ++ partial_entries mid;
             Console.playing := Console.playing self;
             Console.thread := Console.thread self |})
    else (Console.Loaded (count_notes (concat (tracks mid)))
                         (Z.of_nat (length (extracted mid))),
          {| Console.note_queue :=
               sorted timestamp (Console.note_queue self ++ extracted mid);
             Console.playing := Console.playing self;
             Console.thread := Console.thread self |}).
Proof.
  unfold Console.load_midi, Console.try_block, file_fails, partial_entries,
    extracted.
  unfold bind at 1. destruct (length_ok mid); cbn [negb orb].
  - unfold ret at 1. rewrite for_tracks_eq with (earlier := []); [|reflexivity].
    cbn zeta.
    destruct (existsb (existsb (msg_fails (ticks_per_beat mid))) (tracks mid))
      eqn:Hf; [reflexivity|].
    rewrite (sound_tracks_all _ _ Hf). cbn [Console.total_notes
      Console.valid_notes]. reflexivity.
  - unfold raise. now rewrite app_nil_r.
Qed.

Lemma load_midi_loaded file self total valid self' :
  Console.load_midi file self = (Console.Loaded total valid, self') ->
  exists mid,
    file = Decoded mid /\ file_fails mid = false /\
    total = count_notes (concat (tracks mid)) /\
    valid = Z.of_nat (length (extracted mid)) /\
    Console.note_queue self'
    = sorted timestamp (Console.note_queue self ++ extracted mid) /\
    Console.playing self' = Console.playing self /\
    Console.thread self' = Console.thread self.
Proof.
  destruct file as [| |mid]; try discriminate.
  rewrite load_midi_eq. destruct (file_fails mid) eqn:Hf; [discriminate|].
  intros H. injection H as <- <- <-. exists mid. repeat split. exact Hf.
Qed.

(** ** What the extracted entries look like *)

Lemma ticks_after_nonneg msgs :
  Forall valid_msg msgs -> 0 <= ticks_after msgs.
Proof.
  induction 1 as [|m l [Hm _] _ IH]; unfold ticks_after in *; simpl; lia.
Qed.

Lemma tempo_after_nonneg msgs : forall tempo0,
  0 <= tempo0 -> Forall valid_msg msgs -> 0 <= tempo_after tempo0 msgs.
Proof.
  unfold tempo_after.
  induction msgs as [|m l IH]; intros tempo0 H0 Hv; simpl; [exact H0|].
  inversion Hv as [|? ? [_ Hm] Hl]; subst. apply IH; [|exact Hl].
  destruct m; simpl; lia.
Qed.

Lemma seconds_of_nonneg ticks tempo tpb :
  0 <= ticks -> 0 <= tempo -> 0 < tpb -> (0 <= seconds_of ticks tempo tpb)%Q.
Proof.
  intros Ht Hp Hb. unfold seconds_of, Qdiv.
  repeat apply Qmult_le_0_compat.
  - change 0%Q with (inject_Z 0). now rewrite <- Zle_Qle.
  - change 0%Q with (inject_Z 0). now rewrite <- Zle_Qle.
  - discriminate.
  - apply Qinv_le_0_compat. change 0%Q with (inject_Z 0).
    rewrite <- Zle_Qle. lia.
Qed.

Lemma entry_of_ok tpb ticks tempo msg :
  0 <= ticks -> 0 <= tempo -> 0 < tpb ->
  Forall entry_ok (entry_of tpb ticks tempo msg).
Proof.
  intros Ht Hp Hb. unfold entry_of.
  destruct msg as [t n v|t n v|t tp|t]; try constructor;
    (destruct (in_range n) eqn:Hr; [|constructor]);
    (constructor; [|constructor]);
    unfold in_range in Hr; apply andb_true_iff in Hr as [H1 H2];
    apply Z.leb_le in H1, H2;
    (split; [cbn; lia|]);
    unfold timestamp; cbn [fst]; rewrite Qred_correct;
    now apply seconds_of_nonneg.
Qed.

Lemma track_entries_ok tpb tempo0 rest : forall before,
  0 < tpb -> 0 <= tempo0 ->
  Forall valid_msg before -> Forall valid_msg rest ->
  Forall entry_ok (track_entries tpb tempo0 before rest).
Proof.
  induction rest as [|m rest IH]; intros before Hb H0 Hbef Hrest; simpl.
  - constructor.
  - inversion Hrest as [|? ? Hm Hr]; subst.
    assert (Hsnoc : Forall valid_msg (before ++ [m])).
    { apply Forall_app. split; [exact Hbef|]. constructor; [exact Hm|constructor]. }
    apply Forall_app. split.
    + apply entry_of_ok; auto using ticks_after_nonneg, tempo_after_nonneg.
    + apply IH; auto.
Qed.

Lemma file_entries_ok tpb rest : forall earlier,
  0 < tpb ->
  Forall (Forall valid_msg) earlier -> Forall (Forall valid_msg) rest ->
  Forall entry_ok (file_entries tpb earlier rest).
Proof.
  induction rest as [|tr rest IH]; intros earlier Hb He Hr; simpl.
  - constructor.
  - inversion Hr as [|? ? Htr Hrest]; subst.
    apply Forall_app. split.
    + apply track_entries_ok; auto.
      apply tempo_after_nonneg; [lia|].
      apply Forall_concat. exact He.
    + apply IH; auto. apply Forall_app. split; auto.
Qed.

Lemma entry_of_pitch tpb ticks tempo msg :
  map pitch (entry_of tpb ticks tempo msg)
  = filter in_range (map note_of (filter is_note [msg])).
Proof.
  unfold entry_of. destruct msg as [t n v|t n v|t tp|t]; cbn [filter is_note map note_of];
    try reflexivity; destruct (in_range n); reflexivity.
Qed.

Lemma track_entries_pitch tpb tempo0 rest : forall before,
  map pitch (track_entries tpb tempo0 before rest)
  = filter in_range (map note_of (filter is_note rest)).
Proof.
  induction rest as [|m rest IH]; intros before; [reflexivity|].
  cbn [track_entries]. rewrite map_app, IH, entry_of_pitch.
  change (m :: rest) with ([m] ++ rest).
  now rewrite (filter_app is_note), map_app, filter_app.
Qed.

Lemma file_entries_pitch tpb rest : forall earlier,
  map pitch (file_entries tpb earlier rest)
  = filter in_range (map note_of (filter is_note (concat rest))).
Proof.
  induction rest as [|tr rest IH]; intros earlier; [reflexivity|].
  cbn [file_entries concat]. rewrite map_app, IH, track_entries_pitch.
  now rewrite (filter_app is_note), map_app, filter_app.
Qed.

(** ** Claims about the timeline *)

(** C2, as the code has it.  After a successful load the timeline is
    non-decreasing in time over its whole length, entries of equal time are
    in the order in which they were appended, and the timeline is a
    permutation of the queue as it was before the load followed by the
    in-range note events collected from all tracks: [load_midi] does not
    empty the queue first.  For a player whose queue was empty, as
    [__init__] leaves it, the timeline is a permutation of those note events
    alone, with those of equal time in the order of their extraction. *)
Theorem timeline_sorted_stable_permutation
  (file : FileOnDisk) (self self' : Console.MidiPlayer) (total valid : Z) :
  Console.load_midi file self = (Console.Loaded total valid, self') ->
  exists mid,
    file = Decoded mid /\
    StronglySorted (key_le timestamp) (Console.note_queue self') /\
    (forall t, filter (same_key timestamp t) (Console.note_queue self')
               = filter (same_key timestamp t)
                   (Console.note_queue self ++ extracted mid)) /\
    Permutation (Console.note_queue self ++ extracted mid)
                (Console.note_queue self') /\
    (Console.note_queue self = [] ->
     (forall t, filter (same_key timestamp t) (Console.note_queue self')
                = filter (same_key timestamp t) (extracted mid)) /\
     Permutation (extracted mid) (Console.note_queue self')).
Proof.
  intros Hload.
  destruct (load_midi_loaded _ _ _ _ _ Hload)
    as (mid & -> & _ & _ & _ & Hqueue & _).
  rewrite Hqueue.
  exists mid. split; [reflexivity|]. split; [apply sorted_ascending|].
  split; [intros t; apply sorted_stable|]. split; [apply sorted_perm|].
  intros ->. cbn [app].
  split; [intros t; apply sorted_stable|apply sorted_perm].
Qed.

Lemma timeline_sorted_stable_permutation_witness :
  exists mid,
    scenario1 = Decoded mid /\
    StronglySorted (key_le timestamp) [(0%Q, 60, ON); ((1 # 2)%Q, 60, OFF)] /\
    (forall t, filter (same_key timestamp t) [(0%Q, 60, ON); ((1 # 2)%Q, 60, OFF)]
               = filter (same_key timestamp t) ([] ++ extracted mid)) /\
    Permutation ([] ++ extracted mid) [(0%Q, 60, ON); ((1 # 2)%Q, 60, OFF)] /\
    (@nil Entry = [] ->
     (forall t, filter (same_key timestamp t) [(0%Q, 60, ON); ((1 # 2)%Q, 60, OFF)]
                = filter (same_key timestamp t) (extracted mid)) /\
     Permutation (extracted mid) [(0%Q, 60, ON); ((1 # 2)%Q, 60, OFF)]).
Proof.
  exact (timeline_sorted_stable_permutation scenario1 Console.init
           {| Console.note_queue := [(0%Q, 60, ON); ((1 # 2)%Q, 60, OFF)];
              Console.playing := false; Console.thread := false |}
           2 2 eq_refl).
Defined.

(** C2 as stated fails for a load into a player that holds a timeline
    already: after a second load of the first scenario's file the timeline
    has four entries, while the file has two in-range note events, so it is
    no permutation of them. *)
Lemma timeline_permutation_counterexample :
  ~ (forall file self self' total valid,
       Console.load_midi file self = (Console.Loaded total valid, self') ->
       exists mid,
         file = Decoded mid /\
         Permutation (extracted mid) (Console.note_queue self')) /\
  Console.load_midi scenario1
    {| Console.note_queue := [(0%Q, 60, ON); ((1 # 2)%Q, 60, OFF)];
       Console.playing := false; Console.thread := false |}
  = (Console.Loaded 2 2,
     {| Console.note_queue :=
          [(0%Q, 60, ON); (0%Q, 60, ON);
           ((1 # 2)%Q, 60, OFF); ((1 # 2)%Q, 60, OFF)];
        Console.playing := false; Console.thread := false |}).
Proof.
  split; [|reflexivity].
  intros H.
  destruct (H scenario1
              {| Console.note_queue := [(0%Q, 60, ON); ((1 # 2)%Q, 60, OFF)];
                 Console.playing := false; Console.thread := false |}
              {| Console.note_queue :=
                   [(0%Q, 60, ON); (0%Q, 60, ON);
                    ((1 # 2)%Q, 60, OFF); ((1 # 2)%Q, 60, OFF)];
                 Console.playing := false; Console.thread := false |}
              2 2 eq_refl) as (mid & Hmid & Hperm).
  injection Hmid as <-.
  apply Permutation_length in Hperm. discriminate Hperm.
Qed.

(** C3. For a valid decoded file, every entry that a successful load puts
    on the timeline has its pitch in the inclusive range 24 to 108 and a
    time of at least zero, so a timeline whose entries were all such stays
    so.  The pitches added are those of the note messages that pass the
    range test (24 and 108 pass, 23 and 109 do not); the total counter
    counts every note message, the valid counter those that pass. *)
Theorem timeline_entries_in_range
  (mid : MidiFile) (self self' : Console.MidiPlayer) (total valid : Z) :
  valid_file mid ->
  Forall entry_ok (Console.note_queue self) ->
  Console.load_midi (Decoded mid) self = (Console.Loaded total valid, self') ->
  Forall (fun e => 24 <= pitch e <= 108 /\ (0 <= timestamp e)%Q)
         (Console.note_queue self') /\
  Permutation (map pitch (Console.note_queue self)
               ++ filter in_range (map note_of (note_messages mid)))
              (map pitch (Console.note_queue self')) /\
  (forall n, in_range n = true <-> 24 <= n <= 108) /\
  in_range 24 = true /\ in_range 108 = true /\
  in_range 23 = false /\ in_range 109 = false /\
  total = Z.of_nat (length (note_messages mid)) /\
  valid
  = Z.of_nat (length (filter in_range (map note_of (note_messages mid)))).
Proof.
  intros [Hb Hv] Hinv Hload.
  destruct (load_midi_loaded _ _ _ _ _ Hload)
    as (mid' & Hmid & _ & Ht & Hval & Hqueue & _).
  injection Hmid as <-.
  pose proof (sorted_perm timestamp (Console.note_queue self ++ extracted mid))
    as Hperm.
  rewrite <- Hqueue in Hperm.
  assert (Hpitch : map pitch (extracted mid)
                   = filter in_range (map note_of (note_messages mid))).
  { unfold extracted, note_messages. apply file_entries_pitch. }
  split.
  { apply (Permutation_Forall Hperm). apply Forall_app. split; [exact Hinv|].
    apply (file_entries_ok _ _ [] Hb); [constructor|exact Hv]. }
  split.
  { rewrite <- (Permutation_map pitch Hperm), map_app. now rewrite Hpitch. }
  split.
  { intros n. unfold in_range. rewrite andb_true_iff, !Z.leb_le. reflexivity. }
  repeat (split; [reflexivity|]).
  split; [exact Ht|].
  rewrite Hval, <- Hpitch. now rewrite length_map.
Qed.

Lemma timeline_entries_in_range_witness :
  Forall (fun e => 24 <= pitch e <= 108 /\ (0 <= timestamp e)%Q)
         [(0%Q, 24, ON); (0%Q, 108, ON)] /\
  Permutation (map pitch []
               ++ filter in_range (map note_of (note_messages boundary_file)))
              (map pitch [(0%Q, 24, ON); (0%Q, 108, ON)]) /\
  (forall n, in_range n = true <-> 24 <= n <= 108) /\
  in_range 24 = true /\ in_range 108 = true /\
  in_range 23 = false /\ in_range 109 = false /\
  4 = Z.of_nat (length (note_messages boundary_file)) /\
  2 = Z.of_nat
        (length (filter in_range (map note_of (note_messages boundary_file)))).
Proof.
  refine (timeline_entries_in_range boundary_file Console.init
            {| Console.note_queue := [(0%Q, 24, ON); (0%Q, 108, ON)];
               Console.playing := false; Console.thread := false |}
            4 2 _ _ eq_refl).
  - split; [reflexivity|]. repeat constructor; cbn; lia.
  - constructor.
Defined.

(** C4. For an in-range note message the loop body appends exactly one
    entry, whose edge is [ON] exactly when the message is a note-on with a
    velocity above zero and [OFF] in every other case; a note-on of velocity
    zero gives [OFF]. *)
Theorem edge_classification
  (mid : MidiFile) (msg : Message) (v v' : Console.Vars) (q q' : list Entry) :
  is_note msg = true ->
  24 <= note_of msg <= 108 ->
  Console.loop_body mid msg v q = (Ok v', q') ->
  exists e,
    q' = q ++ [e] /\ pitch e = note_of msg /\
    (edge e = ON <-> exists t n vel, msg = NoteOn t n vel /\ 0 < vel) /\
    (edge e = OFF <-> ~ exists t n vel, msg = NoteOn t n vel /\ 0 < vel) /\
    (forall t n, msg = NoteOn t n 0 -> edge e = OFF).
Proof.
  intros Hnote Hrange. rewrite loop_body_eq. cbn zeta.
  destruct (msg_fails (ticks_per_beat mid) msg); [discriminate|].
  intros H. injection H as _ <-.
  assert (Hin : in_range (note_of msg) = true).
  { unfold in_range. apply andb_true_iff. rewrite !Z.leb_le. exact Hrange. }
  destruct msg as [t n vel|t n vel|t tp|t]; try discriminate;
    cbn [note_of] in Hin; unfold entry_of; rewrite Hin;
    eexists; (split; [reflexivity|]); (split; [reflexivity|]);
    cbn [edge snd classify].
  - destruct (0 <? vel) eqn:Hv.
    + apply Z.ltb_lt in Hv. repeat split.
      * intros _. now exists t, n, vel.
      * discriminate.
      * intros Hne. exfalso. apply Hne. now exists t, n, vel.
      * intros t0 n0 Heq. injection Heq as _ _ ->. lia.
    + apply Z.ltb_ge in Hv. repeat split; try reflexivity.
      * discriminate.
      * intros (t0 & n0 & vel0 & Heq & Hpos). injection Heq as _ _ <-. lia.
      * intros _ (t0 & n0 & vel0 & Heq & Hpos). injection Heq as _ _ <-. lia.
  - repeat split; try reflexivity.
    + discriminate.
    + intros (t0 & n0 & vel0 & Heq & _). discriminate.
    + intros _ (t0 & n0 & vel0 & Heq & _). discriminate.
Qed.

Lemma edge_classification_witness :
  exists e,
    [(0%Q, 60, OFF)] = [] ++ [e] /\ pitch e = 60 /\
    (edge e = ON <-> exists t n vel, NoteOn 0 60 0 = NoteOn t n vel /\ 0 < vel) /\
    (edge e = OFF <-> ~ exists t n vel, NoteOn 0 60 0 = NoteOn t n vel /\ 0 < vel) /\
    (forall t n, NoteOn 0 60 0 = NoteOn t n 0 -> edge e = OFF).
Proof.
  refine (edge_classification
            {| tracks := [[NoteOn 0 60 0]]; ticks_per_beat := 480;
               length_ok := true |}
            (NoteOn 0 60 0)
            {| Console.track_time := 0; Console.tempo := 500000;
               Console.total_notes := 0; Console.valid_notes := 0 |}
            {| Console.track_time := 0; Console.tempo := 500000;
               Console.total_notes := 1; Console.valid_notes := 1 |}
            [] [(0%Q, 60, OFF)] eq_refl _ eq_refl).
  cbn. lia.
Defined.

(** ** Tempo scoping and the conversion formula *)

Lemma track_entries_app tpb tempo0 l1 : forall before l2,
  track_entries tpb tempo0 before (l1 ++ l2)
  = track_entries tpb tempo0 before l1
    ++ track_entries tpb tempo0 (before ++ l1) l2.
Proof.
  induction l1 as [|m l1 IH]; intros before l2; cbn [app track_entries].
  - now rewrite app_nil_r.
  - rewrite IH, <- !app_assoc. reflexivity.
Qed.

Lemma file_entries_app tpb l1 : forall earlier l2,
  file_entries tpb earlier (l1 ++ l2)
  = file_entries tpb earlier l1 ++ file_entries tpb (earlier ++ l1) l2.
Proof.
  induction l1 as [|tr l1 IH]; intros earlier l2; cbn [app file_entries].
  - now rewrite app_nil_r.
  - rewrite IH, <- !app_assoc. reflexivity.
Qed.

Lemma extracted_split mid earlier track later :
  tracks mid = earlier ++ track :: later ->
  extracted mid
  = file_entries (ticks_per_beat mid) [] earlier
    ++ track_entries (ticks_per_beat mid)
         (tempo_after 500000 (concat earlier)) [] track
    ++ file_entries (ticks_per_beat mid) (earlier ++ [track]) later.
Proof.
  intros H. unfold extracted. rewrite H, file_entries_app. reflexivity.
Qed.

Lemma tempo_after_no_change tempo0 msgs :
  Forall (fun m => new_tempo tempo0 m = tempo0) msgs ->
  tempo_after tempo0 msgs = tempo0.
Proof.
  unfold tempo_after. induction 1 as [|m l Hm _ IH]; simpl; [reflexivity|].
  now rewrite Hm.
Qed.

(** C1, as the code has it.  The tempo is set to 500000 once, in front of the
    loop over the tracks, and is not reset between tracks.  A track starts
    under the tempo in force at the end of the tracks in front of it, which
    is 500000 for the first track and whenever no track in front of it holds
    a set-tempo message; its entries do not depend on the tracks behind it. *)
Theorem tempo_carries_across_tracks
  (mid : MidiFile) (self self' : Console.MidiPlayer) (total valid : Z)
  (earlier later : list Track) (track : Track) :
  Console.note_queue self = [] ->
  Console.load_midi (Decoded mid) self = (Console.Loaded total valid, self') ->
  tracks mid = earlier ++ track :: later ->
  let tpb := ticks_per_beat mid in
  let start := tempo_after 500000 (concat earlier) in
  Console.note_queue self'
  = sorted timestamp
      (file_entries tpb [] earlier
       ++ track_entries tpb start [] track
       ++ file_entries tpb (earlier ++ [track]) later) /\
  (earlier = [] -> start = 500000) /\
  (Forall (fun m => forall t tp, m <> SetTempo t tp) (concat earlier) ->
   start = 500000) /\
  (forall before t tp after,
     concat earlier = before ++ SetTempo t tp :: after ->
     Forall (fun m => forall t' tp', m <> SetTempo t' tp') after ->
     start = tp).
Proof.
  intros Hq Hload Htracks tpb start.
  destruct (load_midi_loaded _ _ _ _ _ Hload)
    as (mid' & Hmid & _ & _ & _ & Hqueue & _).
  injection Hmid as <-. rewrite Hq in Hqueue. cbn [app] in Hqueue.
  assert (Hplain : forall tempo0 l,
            Forall (fun m => forall t tp, m <> SetTempo t tp) l ->
            tempo_after tempo0 l = tempo0).
  { intros tempo0 l Hl. apply tempo_after_no_change.
    eapply Forall_impl; [|exact Hl]. intros m Hm.
    destruct m; try reflexivity. now destruct (Hm time tempo). }
  split; [|split; [|split]].
  - rewrite Hqueue. now rewrite (extracted_split _ _ _ _ Htracks).
  - intros ->. reflexivity.
  - intros Hno. apply Hplain, Hno.
  - intros before t tp after Hsplit Hafter. subst start. rewrite Hsplit.
    change (SetTempo t tp :: after) with ([SetTempo t tp] ++ after).
    rewrite app_assoc, tempo_after_app, tempo_after_snoc. cbn [new_tempo].
    apply Hplain, Hafter.
Qed.

Lemma tempo_carries_across_tracks_witness :
  [((1 # 1)%Q, 60, ON)]
  = sorted timestamp
      (file_entries 480 [] [[SetTempo 0 1000000]]
       ++ track_entries 480 (tempo_after 500000 (concat [[SetTempo 0 1000000]]))
            [] [NoteOn 480 60 64]
       ++ file_entries 480 ([[SetTempo 0 1000000]] ++ [[NoteOn 480 60 64]]) []) /\
  ([[SetTempo 0 1000000]] = [] ->
   tempo_after 500000 (concat [[SetTempo 0 1000000]]) = 500000) /\
  (Forall (fun m => forall t tp, m <> SetTempo t tp)
          (concat [[SetTempo 0 1000000]]) ->
   tempo_after 500000 (concat [[SetTempo 0 1000000]]) = 500000) /\
  (forall before t tp after,
     concat [[SetTempo 0 1000000]] = before ++ SetTempo t tp :: after ->
     Forall (fun m => forall t' tp', m <> SetTempo t' tp') after ->
     tempo_after 500000 (concat [[SetTempo 0 1000000]]) = tp).
Proof.
  exact (tempo_carries_across_tracks two_track_file Console.init
           {| Console.note_queue := [((1 # 1)%Q, 60, ON)];
              Console.playing := false; Console.thread := false |}
           1 1 [[SetTempo 0 1000000]] [] [NoteOn 480 60 64]
           eq_refl eq_refl eq_refl).
Defined.

(** C1 as stated fails: with a set-tempo message in track A only, the note
    of track B is converted under A's tempo (one second), not under the
    default tempo (half a second), and replacing A's tempo message changes
    the time of B's note. *)
Lemma tempo_scoping_counterexample :
  ~ (forall mid self' total valid,
       Console.load_midi (Decoded mid) Console.init
       = (Console.Loaded total valid, self') ->
       Console.note_queue self'
       = sorted timestamp (extracted_track_scoped mid)) /\
  Console.note_queue (snd (Console.load_midi (Decoded two_track_file) Console.init))
  = [((1 # 1)%Q, 60, ON)] /\
  Console.note_queue
    (snd (Console.load_midi (Decoded two_track_file_plain) Console.init))
  = [((1 # 2)%Q, 60, ON)].
Proof.
  split; [|split; reflexivity].
  intros H.
  specialize (H two_track_file
                {| Console.note_queue := [((1 # 1)%Q, 60, ON)];
                   Console.playing := false; Console.thread := false |}
                1 1 eq_refl).
  discriminate H.
Qed.

Lemma entry_of_note tpb ticks tempo msg :
  is_note msg = true -> 24 <= note_of msg <= 108 ->
  entry_of tpb ticks tempo msg
  = [(Qred (seconds_of ticks tempo tpb), note_of msg, classify msg)].
Proof.
  intros Hn Hr.
  assert (Hin : in_range (note_of msg) = true).
  { unfold in_range. apply andb_true_iff. now rewrite !Z.leb_le. }
  destruct msg; try discriminate; cbn [note_of] in Hin;
    unfold entry_of; now rewrite Hin.
Qed.

Lemma file_fails_note mid track msg :
  file_fails mid = false ->
  In track (tracks mid) -> In msg track ->
  is_note msg = true -> 24 <= note_of msg <= 108 ->
  ticks_per_beat mid <> 0.
Proof.
  unfold file_fails. intros Hf Htr Hmsg Hn Hr Hz.
  apply orb_false_iff in Hf as [_ Hf].
  assert (Hex : existsb (existsb (msg_fails (ticks_per_beat mid))) (tracks mid)
                = true).
  { apply existsb_exists. exists track. split; [exact Htr|].
    apply existsb_exists. exists msg. split; [exact Hmsg|].
    assert (Hin : in_range (note_of msg) = true).
    { unfold in_range. apply andb_true_iff. now rewrite !Z.leb_le. }
    destruct msg; try discriminate; cbn [note_of] in Hin; cbn [msg_fails];
      rewrite Hin, Hz; reflexivity. }
  congruence.
Qed.

(** C5, as the code has it.  An in-range note message is put on the
    timeline with the time [ticks * (tempo / 1000000) / ticks_per_beat],
    where [ticks] is the position of the message in its track and [tempo] is
    the tempo in force when it is met.  With [ticks_per_beat = 480] and tempo
    500000 a note-on at tick 0 and a note-off at tick 480 give the timeline
    [(0, 60, ON); (1/2, 60, OFF)]; after a tempo change to 1000000 a note
    480 ticks later has time 1. *)
Theorem conversion_formula
  (mid : MidiFile) (self self' : Console.MidiPlayer) (total valid : Z)
  (earlier later : list Track) (before after : list Message) (msg : Message) :
  Console.load_midi (Decoded mid) self = (Console.Loaded total valid, self') ->
  tracks mid = earlier ++ (before ++ msg :: after) :: later ->
  is_note msg = true ->
  24 <= note_of msg <= 108 ->
  (exists e,
     In e (Console.note_queue self') /\
     pitch e = note_of msg /\ edge e = classify msg /\
     (timestamp e
      == inject_Z (ticks_after (before ++ [msg]))
         * (inject_Z (tempo_after 500000 (concat earlier ++ before)) / 1000000)
         / inject_Z (ticks_per_beat mid))%Q) /\
  ticks_per_beat mid <> 0 /\
  Console.note_queue (snd (Console.load_midi scenario1 Console.init))
  = [(0%Q, 60, ON); ((1 # 2)%Q, 60, OFF)] /\
  Console.note_queue (snd (Console.load_midi (Decoded scenario3) Console.init))
  = [((1 # 1)%Q, 60, ON)].
Proof.
  intros Hload Htracks Hnote Hrange.
  destruct (load_midi_loaded _ _ _ _ _ Hload)
    as (mid' & Hmid & Hfails & _ & _ & Hqueue & _).
  injection Hmid as <-.
  split; [|split; [|split; reflexivity]].
  - exists (Qred (seconds_of (ticks_after (before ++ [msg]))
                    (tempo_after 500000 (concat earlier ++ before))
                    (ticks_per_beat mid)),
            note_of msg, classify msg).
    split; [|split; [reflexivity|split; [reflexivity|]]].
    + rewrite Hqueue.
      apply (Permutation_in _ (sorted_perm timestamp _)).
      apply in_or_app. right.
      rewrite (extracted_split _ _ _ _ Htracks).
      apply in_or_app. right. apply in_or_app. left.
      rewrite track_entries_app. apply in_or_app. right.
      cbn [track_entries app]. apply in_or_app. left.
      rewrite (entry_of_note _ _ _ _ Hnote Hrange). left.
      rewrite tempo_after_snoc, <- tempo_after_app.
      destruct msg; try discriminate; reflexivity.
    + unfold timestamp. cbn [fst]. rewrite Qred_correct. reflexivity.
  - apply (file_fails_note mid (before ++ msg :: after) msg); auto.
    + rewrite Htracks. apply in_or_app. right. now left.
    + apply in_or_app. right. now left.
Qed.

Lemma conversion_formula_witness :
  (exists e,
     In e [(0%Q, 60, ON); ((1 # 2)%Q, 60, OFF)] /\
     pitch e = 60 /\ edge e = OFF /\
     (timestamp e
      == inject_Z (ticks_after ([NoteOn 0 60 64] ++ [NoteOff 480 60 0]))
         * (inject_Z (tempo_after 500000 (concat [] ++ [NoteOn 0 60 64]))
            / 1000000)
         / inject_Z 480)%Q) /\
  480 <> 0 /\
  Console.note_queue (snd (Console.load_midi scenario1 Console.init))
  = [(0%Q, 60, ON); ((1 # 2)%Q, 60, OFF)] /\
  Console.note_queue (snd (Console.load_midi (Decoded scenario3) Console.init))
  = [((1 # 1)%Q, 60, ON)].
Proof.
  refine (conversion_formula
            {| tracks := [[NoteOn 0 60 64; NoteOff 480 60 0]];
               ticks_per_beat := 480; length_ok := true |}
            Console.init
            {| Console.note_queue := [(0%Q, 60, ON); ((1 # 2)%Q, 60, OFF)];
               Console.playing := false; Console.thread := false |}
            2 2 [] [] [NoteOn 0 60 64] [] (NoteOff 480 60 0)
            eq_refl eq_refl eq_refl _).
  cbn. lia.
Defined.

(** C5 as stated fails in its first scenario: the note-off at tick 480 is
    put at half a second, not at one second. *)
Lemma scenario1_counterexample :
  ~ (exists total valid self',
       Console.load_midi scenario1 Console.init
       = (Console.Loaded total valid, self') /\
       Forall2 entry_eqv (Console.note_queue self')
               [(0%Q, 60, ON); (1%Q, 60, OFF)]).
Proof.
  intros (total & valid & self' & Hload & Heqv).
  injection Hload as _ _ <-. cbn [Console.note_queue] in Heqv.
  inversion Heqv as [|? ? ? ? _ Htail]; subst.
  inversion Htail as [|? ? ? ? [Htime _] _]; subst.
  discriminate Htime.
Qed.

(** ** Loading twice, and loads that fail *)

(** C7, as the code has it.  [load_midi] never empties the queue.  A second
    load of the same file into the same player succeeds with the same
    counters and leaves the time-sorted merge of the first timeline with a
    second copy of the file's entries, so every entry is there twice; it
    equals the first timeline only when that is empty.  The timeline of a
    load into a player with an empty queue depends on the file alone. *)
Theorem second_load_doubles_the_timeline
  (mid : MidiFile) (self p1 : Console.MidiPlayer) (total valid : Z) :
  Console.note_queue self = [] ->
  Console.load_midi (Decoded mid) self = (Console.Loaded total valid, p1) ->
  exists p2,
    Console.load_midi (Decoded mid) p1 = (Console.Loaded total valid, p2) /\
    Console.note_queue p2
    = sorted timestamp (Console.note_queue p1 ++ extracted mid) /\
    Permutation (Console.note_queue p1 ++ Console.note_queue p1)
                (Console.note_queue p2) /\
    (Console.note_queue p2 = Console.note_queue p1
     <-> Console.note_queue p1 = []) /\
    (forall other,
       Console.note_queue other = [] ->
       Console.note_queue (snd (Console.load_midi (Decoded mid) other))
       = Console.note_queue p1).
Proof.
  intros Hq Hload.
  destruct (load_midi_loaded _ _ _ _ _ Hload)
    as (mid' & Hmid & Hfails & Ht & Hv & Hqueue & _).
  injection Hmid as <-. rewrite Hq in Hqueue. cbn [app] in Hqueue.
  assert (Hperm1 : Permutation (extracted mid) (Console.note_queue p1)).
  { rewrite Hqueue. apply sorted_perm. }
  eexists. rewrite load_midi_eq, Hfails, <- Ht, <- Hv.
  split; [reflexivity|]. cbn [Console.note_queue].
  assert (Hperm2 : Permutation (Console.note_queue p1 ++ Console.note_queue p1)
                     (sorted timestamp (Console.note_queue p1 ++ extracted mid))).
  { rewrite <- sorted_perm. apply Permutation_app_head. now symmetry. }
  split; [reflexivity|]. split; [exact Hperm2|]. split.
  - split.
    + intros Heq. rewrite Heq in Hperm2.
      apply Permutation_length in Hperm2. rewrite length_app in Hperm2.
      destruct (Console.note_queue p1); [reflexivity|simpl in Hperm2; lia].
    + intros Hnil. rewrite Hnil in *.
      apply Permutation_sym, Permutation_nil in Hperm1. now rewrite Hperm1.
  - intros other Ho. rewrite load_midi_eq, Hfails. cbn [snd Console.note_queue].
    now rewrite Ho, Hqueue.
Qed.

Lemma second_load_doubles_the_timeline_witness :
  exists p2,
    Console.load_midi scenario1
      {| Console.note_queue := [(0%Q, 60, ON); ((1 # 2)%Q, 60, OFF)];
         Console.playing := false; Console.thread := false |}
    = (Console.Loaded 2 2, p2) /\
    Console.note_queue p2
    = sorted timestamp
        ([(0%Q, 60, ON); ((1 # 2)%Q, 60, OFF)]
         ++ extracted {| tracks := [[NoteOn 0 60 64; NoteOff 480 60 0]];
                         ticks_per_beat := 480; length_ok := true |}) /\
    Permutation ([(0%Q, 60, ON); ((1 # 2)%Q, 60, OFF)]
                 ++ [(0%Q, 60, ON); ((1 # 2)%Q, 60, OFF)])
                (Console.note_queue p2) /\
    (Console.note_queue p2 = [(0%Q, 60, ON); ((1 # 2)%Q, 60, OFF)]
     <-> [(0%Q, 60, ON); ((1 # 2)%Q, 60, OFF)] = []) /\
    (forall other,
       Console.note_queue other = [] ->
       Console.note_queue (snd (Console.load_midi scenario1 other))
       = [(0%Q, 60, ON); ((1 # 2)%Q, 60, OFF)]).
Proof.
  exact (second_load_doubles_the_timeline
           {| tracks := [[NoteOn 0 60 64; NoteOff 480 60 0]];
              ticks_per_beat := 480; length_ok := true |}
           Console.init
           {| Console.note_queue := [(0%Q, 60, ON); ((1 # 2)%Q, 60, OFF)];
              Console.playing := false; Console.thread := false |}
           2 2 eq_refl eq_refl).
Defined.

(** C7 as stated fails: after the second load of the first scenario's file
    the timeline has four entries, not the two of the first load. *)
Lemma second_load_counterexample :
  let p1 := snd (Console.load_midi scenario1 Console.init) in
  let p2 := snd (Console.load_midi scenario1 p1) in
  Console.note_queue p1 = [(0%Q, 60, ON); ((1 # 2)%Q, 60, OFF)] /\
  Console.note_queue p2
  = [(0%Q, 60, ON); (0%Q, 60, ON); ((1 # 2)%Q, 60, OFF); ((1 # 2)%Q, 60, OFF)] /\
  Console.note_queue p2 <> Console.note_queue p1.
Proof.
  cbv zeta. split; [reflexivity|]. split; [reflexivity|]. discriminate.
Qed.

Lemma msg_fails_iff tpb msg :
  msg_fails tpb msg = true <-> zero_tempo msg \/ unconvertible tpb msg.
Proof.
  unfold zero_tempo, unconvertible, in_range.
  destruct msg as [t n v|t n v|t tp|t]; cbn [msg_fails is_note note_of].
  - unfold in_range. rewrite !andb_true_iff, !Z.leb_le, Z.eqb_eq. split.
    + intros [[H1 H2] H3]. right. repeat split; auto.
    + intros [[t0 H]|(H1 & _ & H2)]; [discriminate|]. repeat split; lia.
  - unfold in_range. rewrite !andb_true_iff, !Z.leb_le, Z.eqb_eq. split.
    + intros [[H1 H2] H3]. right. repeat split; auto.
    + intros [[t0 H]|(H1 & _ & H2)]; [discriminate|]. repeat split; lia.
  - rewrite Z.eqb_eq. split.
    + intros ->. left. now exists t.
    + intros [[t0 H]|(_ & H & _)]; [now injection H|discriminate].
  - split; [discriminate|].
    intros [[t0 H]|(_ & H & _)]; discriminate.
Qed.

Lemma file_fails_iff mid : file_fails mid = true <-> raises_somewhere mid.
Proof.
  unfold file_fails, raises_somewhere.
  rewrite orb_true_iff, negb_true_iff, existsb_exists. split.
  - intros [H|(track & Htr & H)]; [now left|right].
    apply existsb_exists in H as (msg & Hmsg & H).
    exists track, msg. repeat split; auto. now apply msg_fails_iff.
  - intros [H|(track & msg & Htr & Hmsg & H)]; [now left|right].
    exists track. split; [exact Htr|]. apply existsb_exists.
    exists msg. split; [exact Hmsg|]. now apply msg_fails_iff.
Qed.

(** C8, as the code has it.  A load fails, and returns [False], exactly when
    the path is missing, mido cannot decode the file, reading [mid.length]
    raises, a set-tempo message has the value zero, or [ticks_per_beat] is
    zero and an in-range note occurs.  Nothing is rolled back: the queue is
    then the queue as it was, followed by the entries appended before the
    exception, and the other fields are untouched; when the failure comes
    before the extraction the player is unchanged. *)
Theorem failed_load_keeps_appended_entries
  (file : FileOnDisk) (self self' : Console.MidiPlayer)
  (outcome : Console.Outcome) :
  Console.load_midi file self = (outcome, self') ->
  (Console.returned outcome = false
   <-> match file with
       | Absent | Undecodable => True
       | Decoded mid => raises_somewhere mid
       end) /\
  (Console.returned outcome = false ->
   Console.note_queue self'
   = Console.note_queue self
     ++ match file with
        | Absent | Undecodable => []
        | Decoded mid => partial_entries mid
        end /\
   Console.playing self' = Console.playing self /\
   Console.thread self' = Console.thread self /\
   match file with
   | Absent | Undecodable => self' = self
   | Decoded mid => length_ok mid = false -> self' = self
   end).
Proof.
  destruct file as [| |mid].
  - intros H. injection H as <- <-. cbn. rewrite app_nil_r. tauto.
  - intros H. injection H as <- <-. cbn. rewrite app_nil_r. tauto.
  - rewrite load_midi_eq. pose proof (file_fails_iff mid) as Hiff.
    destruct (file_fails mid); intros H; injection H as <- <-;
      cbn [Console.returned Console.note_queue Console.playing Console.thread].
    + split; [tauto|]. intros _. repeat split.
      intros Hlen. unfold partial_entries. rewrite Hlen, app_nil_r.
      now destruct self.
    + split; [|discriminate]. split; [discriminate|].
      intros Hr. apply Hiff in Hr. discriminate.
Qed.

Lemma failed_load_keeps_appended_entries_witness :
  (Console.returned Console.Failed = false <-> raises_somewhere zero_tempo_file) /\
  (Console.returned Console.Failed = false ->
   [(0%Q, 60, ON)] = [] ++ partial_entries zero_tempo_file /\
   false = false /\ false = false /\
   (length_ok zero_tempo_file = false ->
    {| Console.note_queue := [(0%Q, 60, ON)];
       Console.playing := false; Console.thread := false |} = Console.init)).
Proof.
  exact (failed_load_keeps_appended_entries (Decoded zero_tempo_file)
           Console.init
           {| Console.note_queue := [(0%Q, 60, ON)];
              Console.playing := false; Console.thread := false |}
           Console.Failed eq_refl).
Defined.

(** C8 as stated fails: a load that raises on a set-tempo message of value
    zero returns [False] and keeps the note appended before it, and a
    negative [ticks_per_beat] does not make the load fail. *)
Lemma failed_load_counterexample :
  ~ (forall file self,
       Console.returned (fst (Console.load_midi file self)) = false ->
       Console.note_queue (snd (Console.load_midi file self))
       = Console.note_queue self) /\
  Console.load_midi (Decoded zero_tempo_file) Console.init
  = (Console.Failed,
     {| Console.note_queue := [(0%Q, 60, ON)];
        Console.playing := false; Console.thread := false |}) /\
  Console.load_midi (Decoded negative_tpb_file) Console.init
  = (Console.Loaded 1 1,
     {| Console.note_queue := [((-1 # 2)%Q, 60, ON)];
        Console.playing := false; Console.thread := false |}).
Proof.
  split; [|split; reflexivity].
  intros H. specialize (H (Decoded zero_tempo_file) Console.init eq_refl).
  discriminate H.
Qed.

(** ** The two programs extract alike *)

Section ConsoleSerial.
Variable mid : MidiFile.

Lemma serial_loop_body msg v q :
  Console.loop_body mid msg (to_console v) q
  = res_to_console (Serial.loop_body mid msg v q).
Proof.
  unfold Console.loop_body, Serial.loop_body, truediv, tick2second,
    bind, ret, raise, append, res_to_console, to_console.
  destruct msg as [t n vel|t n vel|t tp|t];
    cbn -[Qred Qmult Qdiv inject_Z Z.add Z.leb Z.ltb Z.eqb];
    try reflexivity.
  - destruct ((24 <=? n) && (n <=? 108)); [|reflexivity].
    destruct (ticks_per_beat mid =? 0); reflexivity.
  - destruct ((24 <=? n) && (n <=? 108)); [|reflexivity].
    destruct (ticks_per_beat mid =? 0); reflexivity.
  - destruct (tp =? 0); reflexivity.
Qed.

Lemma serial_for_msgs track : forall v q,
  Console.for_msgs mid track (to_console v) q
  = res_to_console (Serial.for_msgs mid track v q).
Proof.
  induction track as [|msg rest IH]; intros v q; [reflexivity|].
  cbn [Console.for_msgs Serial.for_msgs]. unfold bind.
  rewrite serial_loop_body.
  destruct (Serial.loop_body mid msg v q) as [[v'|e] q']; cbn [res_to_console].
  - apply IH.
  - reflexivity.
Qed.

Lemma serial_for_tracks trs : forall v q,
  Console.for_tracks mid trs (to_console v) q
  = res_to_console (Serial.for_tracks mid trs v q).
Proof.
  induction trs as [|track rest IH]; intros v q; [reflexivity|].
  cbn [Console.for_tracks Serial.for_tracks]. unfold bind.
  change {| Console.track_time := 0;
            Console.tempo := Console.tempo (to_console v);
            Console.total_notes := Console.total_notes (to_console v);
            Console.valid_notes := Console.valid_notes (to_console v) |}
    with (to_console {| Serial.track_time := 0;
                        Serial.tempo := Serial.tempo v;
                        Serial.total_notes := Serial.total_notes v;
                        Serial.valid_notes := Serial.valid_notes v |}).
  rewrite serial_for_msgs.
  destruct (Serial.for_msgs mid track _ q) as [[v'|e] q']; cbn [res_to_console].
  - apply IH.
  - reflexivity.
Qed.

Lemma serial_try_block q :
  Console.try_block mid q = res_to_console (Serial.try_block mid q).
Proof.
  unfold Console.try_block, Serial.try_block, bind.
  destruct (length_ok mid); [|reflexivity].
  change (ret tt q) with (@Ok unit tt, q). cbv iota beta.
  apply (serial_for_tracks (tracks mid)
           {| Serial.track_time := 0; Serial.tempo := 500000;
              Serial.total_notes := 0; Serial.valid_notes := 0 |}).
Qed.

End ConsoleSerial.

(** C10. Started on the same queue, [load_midi] of the console program and
    [load_midi] of the serial program leave the same timeline, entry for
    entry and in the same order, and return alike with the same counters. *)
Theorem console_and_serial_extract_alike
  (file : FileOnDisk) (pc : Console.MidiPlayer) (ps : Serial.MidiPlayer) :
  Console.note_queue pc = Serial.note_queue ps ->
  Console.note_queue (snd (Console.load_midi file pc))
  = Serial.note_queue (snd (Serial.load_midi file ps)) /\
  same_outcome (fst (Console.load_midi file pc))
               (fst (Serial.load_midi file ps)).
Proof.
  intros Hq. destruct file as [| |mid]; cbn; auto.
  rewrite serial_try_block, Hq.
  destruct (Serial.try_block mid (Serial.note_queue ps)) as [[v|e] q];
    cbn; auto.
Qed.

Lemma console_and_serial_extract_alike_witness :
  Console.note_queue (snd (Console.load_midi scenario1 Console.init))
  = Serial.note_queue
      (snd (Serial.load_midi scenario1 (Serial.init None 115200 false))) /\
  same_outcome (fst (Console.load_midi scenario1 Console.init))
               (fst (Serial.load_midi scenario1
                       (Serial.init None 115200 false))).
Proof.
  exact (console_and_serial_extract_alike scenario1 Console.init
           (Serial.init None 115200 false) eq_refl).
Defined.

(** ** The float subtraction: its sign and its error *)

Lemma pow2_pos e : (0 < pow2 e)%Q.
Proof. apply Qpower_0_lt. reflexivity. Qed.

Lemma round_half_even_near s :
  (s - (1 # 2) <= inject_Z (round_half_even s) <= s + (1 # 2))%Q.
Proof.
  unfold round_half_even.
  pose proof (Qfloor_le s) as Hlo. pose proof (Qlt_floor s) as Hhi.
  rewrite inject_Z_plus in Hhi. change (inject_Z 1) with 1%Q in Hhi.
  destruct (Qcompare (s - inject_Z (Qfloor s)) (1 # 2)) eqn:Hc.
  - apply Qeq_alt in Hc.
    destruct (Z.even (Qfloor s));
      rewrite ?inject_Z_plus; change (inject_Z 1) with 1%Q; lra.
  - apply Qlt_alt in Hc. lra.
  - apply Qgt_alt in Hc. rewrite inject_Z_plus.
    change (inject_Z 1) with 1%Q. lra.
Qed.

Lemma pow2_Z n : 0 <= n -> (pow2 n == inject_Z (2 ^ n))%Q.
Proof. intros H. unfold pow2. now rewrite Zpower_Qpower. Qed.

Lemma ilog2_le x : (0 < x)%Q -> (pow2 (ilog2 x) <= x)%Q.
Proof.
  intros Hx. unfold ilog2.
  destruct (Qle_bool _ x) eqn:E; [now apply Qle_bool_iff|].
  destruct x as [n d]. cbn [Qnum Qden].
  assert (Hn : 0 < n) by (unfold Qlt in Hx; cbn in Hx; lia).
  pose proof (Z.log2_spec n Hn) as [Hn1 _].
  pose proof (Z.log2_spec (Z.pos d) (Pos2Z.is_pos d)) as [_ Hd2].
  pose proof (Z.log2_nonneg n) as Hln.
  pose proof (Z.log2_nonneg (Z.pos d)) as Hld.
  replace (Z.log2 n - Z.log2 (Z.pos d) - 1)
    with (Z.log2 n - Z.succ (Z.log2 (Z.pos d))) by lia.
  unfold pow2 at 1. rewrite Qpower_minus by discriminate.
  fold (pow2 (Z.log2 n)). fold (pow2 (Z.succ (Z.log2 (Z.pos d)))).
  rewrite !pow2_Z by lia.
  set (A := 2 ^ Z.log2 n) in *. set (B := 2 ^ Z.succ (Z.log2 (Z.pos d))) in *.
  apply Qle_shift_div_r.
  - change 0%Q with (inject_Z 0). rewrite <- Zlt_Qlt. lia.
  - unfold Qle. cbn. nia.
Qed.

Lemma round53_pos_bound x :
  (0 < x)%Q ->
  (x * (1 - ulp53) <= round53_pos x <= x * (1 + ulp53))%Q.
Proof.
  intros Hx. unfold round53_pos.
  set (k := ilog2 x). set (p := pow2 (k - 52)).
  pose proof (ilog2_le x Hx) as Hk. fold k in Hk.
  assert (Hp : (0 < p)%Q) by apply pow2_pos.
  assert (Hpk : (pow2 k == p * inject_Z (2 ^ 52))%Q).
  { unfold p. rewrite <- (pow2_Z 52) by lia. unfold pow2.
    rewrite <- Qpower_plus by discriminate.
    now replace (k - 52 + 52) with k by lia. }
  pose proof (round_half_even_near (x / p)) as [Hlo Hhi].
  set (m := inject_Z (round_half_even (x / p))) in *.
  assert (Hs : (x / p * p == x)%Q).
  { field. intros H. rewrite H in Hp. now apply Qlt_irrefl in Hp. }
  set (s := (x / p)%Q) in *.
  assert (Hu : (p <= 2 * ulp53 * x)%Q).
  { rewrite Hpk in Hk.
    change (inject_Z (2 ^ 52)) with (4503599627370496 # 1)%Q in Hk.
    unfold ulp53. lra. }
  unfold ulp53 in *. split; nra.
Qed.

Lemma round53_comp x y : (x == y)%Q -> round53 x = round53 y.
Proof. intros H. unfold round53. now rewrite (Qred_complete _ _ H). Qed.

Lemma round53_bound_pos x :
  (0 < x)%Q -> (x * (1 - ulp53) <= round53 x <= x * (1 + ulp53))%Q.
Proof.
  intros Hx. unfold round53.
  pose proof (Qred_correct x) as Hr.
  destruct (Qred x) as [n d] eqn:E.
  assert (Hn : (0 < n # d)%Q) by now rewrite Hr.
  destruct n as [|n|n];
    try (exfalso; unfold Qlt in Hn; cbn in Hn; lia).
  cbn [Qnum]. rewrite Qred_correct, <- Hr. now apply round53_pos_bound.
Qed.

Lemma round53_bound_neg x :
  (x < 0)%Q -> (x * (1 + ulp53) <= round53 x <= x * (1 - ulp53))%Q.
Proof.
  intros Hx. unfold round53.
  pose proof (Qred_correct x) as Hr.
  destruct (Qred x) as [n d] eqn:E.
  assert (Hn : (n # d < 0)%Q) by now rewrite Hr.
  destruct n as [|n|n]; try (exfalso; unfold Qlt in Hn; cbn in Hn; lia).
  cbn [Qnum]. rewrite Qred_correct.
  assert (Hpos : (0 < - (Z.neg n # d))%Q) by lra.
  pose proof (round53_pos_bound _ Hpos) as [H1 H2].
  rewrite <- Hr. split; lra.
Qed.

Lemma round53_zero x : (x == 0)%Q -> round53 x = 0%Q.
Proof. intros H. now rewrite (round53_comp _ _ H). Qed.

(** The rounded difference has the sign of the exact one. *)
Lemma float_sub_positive a b : (0 < float_sub a b)%Q <-> (b < a)%Q.
Proof.
  unfold float_sub.
  assert (Hu : (0 < ulp53 /\ ulp53 < 1)%Q) by (split; reflexivity).
  split; intros H.
  - destruct (Qlt_le_dec b a) as [Hx|Hx]; [exact Hx|exfalso].
    apply Qle_lteq in Hx as [Hx|Hx].
    + assert (Hneg : (a - b < 0)%Q) by lra.
      pose proof (round53_bound_neg _ Hneg) as [_ H2]. nra.
    + assert (Hz : (a - b == 0)%Q) by lra.
      rewrite (round53_zero _ Hz) in H. now apply Qlt_irrefl in H.
  - assert (Hpos : (0 < a - b)%Q) by lra.
    pose proof (round53_bound_pos _ Hpos) as [H1 _]. nra.
Qed.

Lemma float_sub_error a b :
  (b < a)%Q ->
  ((a - b) * (1 - ulp53) <= float_sub a b <= (a - b) * (1 + ulp53))%Q.
Proof.
  intros H. apply round53_bound_pos. lra.
Qed.

(** Binary64 values the subtraction is known to give. *)
Example float_sub_tenth :
  float_sub (1 # 10) 0 = (3602879701896397 # 36028797018963968)%Q.
Proof. vm_compute. reflexivity. Qed.

Example float_sub_exact : float_sub 5 (1 # 2) = (9 # 2)%Q.
Proof. vm_compute. reflexivity. Qed.

Example float_sub_tie :
  float_sub (9007199254740993 # 1) 0 = (9007199254740992 # 1)%Q.
Proof. vm_compute. reflexivity. Qed.

Example float_sub_rounds :
  float_sub (1 # 30) (1 # 960) = (4653719614949513 # 144115188075855872)%Q.
Proof. vm_compute. reflexivity. Qed.

(** ** Playback *)

Section PlaybackFacts.
Import Playback.

Lemma positive_iff d : positive d = true <-> (0 < d)%Q.
Proof.
  unfold positive. rewrite negb_true_iff. split.
  - intros H. apply Qnot_le_lt. intros Hle.
    apply Qle_bool_iff in Hle. congruence.
  - intros H. destruct (Qle_bool d 0) eqn:E; [|reflexivity].
    apply Qle_bool_iff in E. exfalso. now apply (Qlt_not_le _ _ H).
Qed.

Lemma positive_false_iff d : positive d = false <-> (d <= 0)%Q.
Proof.
  unfold positive. rewrite negb_false_iff. apply Qle_bool_iff.
Qed.

Lemma iteration_sleeps st : Forall sleep_ok (fst (iteration st)).
Proof.
  unfold iteration. destruct (queue st) as [|[[ts n] s] rest]; cbn [fst].
  - repeat constructor. discriminate.
  - destruct (positive (float_sub ts (last_time st))) eqn:E;
      repeat constructor.
    apply positive_iff in E. cbn. now apply Qlt_le_weak.
Qed.

Lemma duration_nonneg acts : Forall sleep_ok acts -> (0 <= duration acts)%Q.
Proof.
  induction 1 as [|a l Ha _ IH]; cbn [duration]; [apply Qle_refl|].
  destruct a; cbn in Ha; [lra|exact IH].
Qed.

Lemma elapse_bounds acts : forall now,
  Forall sleep_ok acts ->
  Forall (fun ta => (now <= fst ta /\ fst ta <= now + duration acts)%Q)
         (elapse now acts).
Proof.
  induction acts as [|a acts IH]; intros now Hok; [constructor|].
  inversion Hok as [|? ? Ha Hrest]; subst.
  pose proof (duration_nonneg _ Hrest) as Hd.
  destruct a as [d|n s]; cbn [elapse duration]; constructor.
  - cbn [fst]. cbn in Ha. lra.
  - eapply Forall_impl; [|apply (IH (now + d)%Q Hrest)].
    cbn in Ha. intros ta [H1 H2]. lra.
  - cbn [fst]. lra.
  - apply (IH now Hrest).
Qed.

Lemma sends_app l1 l2 : sends (l1 ++ l2) = sends l1 ++ sends l2.
Proof. unfold sends. apply flat_map_app. Qed.

Lemma sends_bound (P : Q -> Prop) trace :
  Forall (fun ta => P (fst ta)) trace ->
  Forall (fun x => P (timestamp x)) (sends trace).
Proof.
  induction 1 as [|[t a] l Hta _ IH]; [constructor|].
  unfold sends in *. cbn [flat_map snd fst]. destruct a; cbn [app].
  - exact IH.
  - constructor; [exact Hta|exact IH].
Qed.

(** The loop is left only once [stop()] has run, and the clock of every
    action lies between the start and the end of the loop. *)
Lemma run_bounds stop_at fuel : forall now st trace exit,
  run fuel stop_at now st = (trace, Some exit) ->
  (stop_at <= exit)%Q /\ (now <= exit)%Q /\
  Forall (fun ta => (now <= fst ta /\ fst ta <= exit)%Q) trace.
Proof.
  induction fuel as [|fuel IH]; intros now st trace exit; [discriminate|].
  cbn [run].
  destruct (playing_at stop_at now
            || negb match queue st with [] => true | _ => false end) eqn:Hc.
  - pose proof (iteration_sleeps st) as Hok.
    destruct (iteration st) as [acts st']. cbn [fst] in Hok.
    destruct (run fuel stop_at (now + duration acts)%Q st')
      as [trace' exit'] eqn:Hrun.
    intros H. injection H as <- ->.
    destruct (IH _ _ _ _ Hrun) as (H1 & H2 & H3).
    pose proof (duration_nonneg _ Hok) as Hd.
    split; [exact H1|]. split; [lra|].
    apply Forall_app. split.
    + eapply Forall_impl; [|apply (elapse_bounds _ now Hok)].
      intros ta [Ha Hb]. lra.
    + eapply Forall_impl; [|exact H3]. intros ta [Ha Hb]. lra.
  - intros H. injection H as <- <-.
    apply orb_false_iff in Hc as [Hp _]. unfold playing_at in Hp.
    apply negb_false_iff, Qle_bool_iff in Hp.
    split; [exact Hp|]. split; [apply Qle_refl|constructor].
Qed.

(** While entries are queued the loop goes on, whatever the flag says. *)
Lemma run_drained stop_at q : forall fuel now last,
  run (length q + fuel) stop_at now {| queue := q; last_time := last |}
  = let '(trace, now', last') := drained now last q in
    let '(trace', exit) :=
      run fuel stop_at now' {| queue := []; last_time := last' |} in
    (trace ++ trace', exit).
Proof.
  induction q as [|[[ts n] s] rest IH]; intros fuel now last.
  - cbn [length Nat.add drained app].
    now destruct (run fuel stop_at now _).
  - cbn [length Nat.add run queue negb]. rewrite orb_true_r.
    cbn [drained]. unfold iteration at 1 2. cbn [queue last_time].
    rewrite (IH fuel).
    destruct (drained _ ts rest) as [[trace now'] last'].
    destruct (run fuel stop_at now' _) as [trace' exit].
    now rewrite app_assoc.
Qed.

Lemma drained_sends q : forall now last,
  map sent (sends (fst (fst (drained now last q)))) = map queued q.
Proof.
  induction q as [|[[ts n] s] rest IH]; intros now last; [reflexivity|].
  cbn [drained]. unfold iteration. cbn [queue last_time].
  specialize (IH (now + duration
                   ((if positive (float_sub ts last)
                       then [Sleep (float_sub ts last)] else [])
                    ++ [Send n s]))%Q ts).
  destruct (drained _ ts rest) as [[trace now'] last'].
  cbn [fst] in *. rewrite sends_app, map_app, IH.
  destruct (positive (float_sub ts last)); reflexivity.
Qed.

(** With the queue empty the loop polls every millisecond until the flag
    is down. *)
Lemma run_idle stop_at last n : forall now,
  (stop_at <= now + inject_Z (Z.of_nat n) * (1 # 1000))%Q ->
  exists trace exit,
    run (S n) stop_at now {| queue := []; last_time := last |}
    = (trace, Some exit) /\ sends trace = [].
Proof.
  induction n as [|n IH]; intros now Hn.
  - exists [], now. cbn [run queue negb orb].
    assert (Hp : playing_at stop_at now = false).
    { unfold playing_at. apply negb_false_iff, Qle_bool_iff.
      change (inject_Z (Z.of_nat 0)) with 0%Q in Hn. lra. }
    rewrite Hp. now split.
  - remember (S n) as m eqn:Hm. cbn [run queue negb].
    rewrite orb_false_r.
    destruct (playing_at stop_at now).
    + unfold iteration. cbn [queue duration]. subst m.
      destruct (IH (now + ((1 # 1000) + 0))%Q) as (trace & exit & Hrun & Hs).
      { rewrite Nat2Z.inj_succ, <- Z.add_1_r, inject_Z_plus in Hn.
        change (inject_Z 1) with 1%Q in Hn. lra. }
      rewrite Hrun. exists (elapse now [Sleep (1 # 1000)] ++ trace), exit.
      split; [reflexivity|]. rewrite sends_app, Hs. reflexivity.
    + exists [], now. now split.
Qed.

Lemma enough_polls (x : Q) :
  exists n : nat, (x <= inject_Z (Z.of_nat n) * (1 # 1000))%Q.
Proof.
  exists (Z.to_nat (Qceiling (x * 1000))).
  destruct (Z.le_gt_cases 0 (Qceiling (x * 1000))) as [Hpos|Hneg].
  - rewrite Z2Nat.id by exact Hpos.
    pose proof (Qle_ceiling (x * 1000)) as Hc. lra.
  - replace (Z.to_nat (Qceiling (x * 1000))) with 0%nat by lia.
    pose proof (Qle_ceiling (x * 1000)) as Hc.
    assert (Hlt : (inject_Z (Qceiling (x * 1000)) <= inject_Z 0)%Q)
      by (rewrite <- Zle_Qle; lia).
    cbn [Z.of_nat]. change (inject_Z 0) with 0%Q in *. lra.
Qed.

End PlaybackFacts.

(** A loop that was left did the iterations over its queue and then only
    polled. *)
Lemma run_finished_trace stop_at fuel : forall now q last trace exit,
  Playback.run fuel stop_at now
    {| Playback.queue := q; Playback.last_time := last |}
  = (trace, Some exit) ->
  exists polls,
    trace = fst (fst (drained now last q)) ++ polls /\
    Forall (fun ta => snd ta = Sleep (1 # 1000)) polls.
Proof.
  induction fuel as [|fuel IH]; intros now q last trace exit; [discriminate|].
  cbn [Playback.run Playback.queue].
  destruct q as [|[[ts n] s] rest].
  - cbn [negb drained fst app]. rewrite orb_false_r.
    destruct (Playback.playing_at stop_at now).
    + unfold Playback.iteration. cbn [Playback.queue].
      destruct (Playback.run fuel stop_at _ _) as [trace' exit'] eqn:Hrun.
      intros H. injection H as <- ->.
      destruct (IH _ _ _ _ _ Hrun) as (polls & -> & Hpolls).
      cbn [drained fst app Playback.elapse].
      exists ((now, Sleep (1 # 1000)) :: polls). split; [reflexivity|].
      now constructor.
    + intros H. injection H as <- _. exists []. now split.
  - cbn [negb]. rewrite orb_true_r. cbn [drained].
    unfold Playback.iteration. cbn [Playback.queue Playback.last_time].
    destruct (Playback.run fuel stop_at _ _) as [trace' exit'] eqn:Hrun.
    intros H. injection H as <- ->.
    destruct (IH _ _ _ _ _ Hrun) as (polls & -> & Hpolls).
    destruct (drained _ ts rest) as [[tr now'] last'].
    cbn [fst]. exists polls. split; [now rewrite app_assoc|exact Hpolls].
Qed.

(** The sleeps of the iterations over a queue are delays above zero. *)
Lemma drained_sleeps q : forall now last,
  Forall (fun ta => forall d, snd ta = Sleep d -> (0 < d)%Q)
         (fst (fst (drained now last q))).
Proof.
  induction q as [|[[ts n] s] rest IH]; intros now last; [constructor|].
  cbn [drained]. unfold Playback.iteration.
  cbn [Playback.queue Playback.last_time].
  specialize (IH (now + Playback.duration
                    ((if Playback.positive (float_sub ts last)
                      then [Sleep (float_sub ts last)] else [])
                     ++ [Send n s]))%Q ts).
  destruct (drained _ ts rest) as [[tr now'] last'].
  cbn [fst] in *. apply Forall_app. split; [|exact IH].
  destruct (Playback.positive (float_sub ts last)) eqn:Hp;
    cbn [app Playback.elapse]; repeat constructor;
    cbn [snd]; intros d Hd; try discriminate.
  injection Hd as <-. now apply positive_iff.
Qed.

(** C6, as the code has it.  An iteration that takes an entry off the queue
    computes [delay = timestamp - last_time] and sleeps, for [delay] seconds,
    only when [delay > 0], which is when the entry's time is later than
    [last_time]; with a zero or negative delay the entry is sent at once, so
    two consecutive entries of equal time are sent one right after the other,
    at the same clock, with no sleep in between.  The delay is not the only
    wait: an iteration that finds the queue empty sleeps for a millisecond.
    A loop that was left has done the iterations over its queue, with sleeps
    that are delays above zero, and only then such polls, so that no poll
    falls between two sends. *)
Theorem waits_of_the_playback_loop (st : Playback.Loop) :
  (forall ts note state rest,
     Playback.queue st = (ts, note, state) :: rest ->
     let delay := float_sub ts (Playback.last_time st) in
     ((0 < delay)%Q ->
      fst (Playback.iteration st) = [Sleep delay; Send note state]) /\
     ((delay <= 0)%Q -> fst (Playback.iteration st) = [Send note state]) /\
     ((0 < delay)%Q <-> (Playback.last_time st < ts)%Q) /\
     snd (Playback.iteration st)
     = {| Playback.queue := rest; Playback.last_time := ts |} /\
     (forall ts2 n2 s2 rest2 fuel stop_at now,
        rest = (ts2, n2, s2) :: rest2 -> (ts2 == ts)%Q ->
        fst (Playback.iteration (snd (Playback.iteration st))) = [Send n2 s2] /\
        exists pre t1 t2 post exit,
          Playback.run (S (S fuel)) stop_at now st
          = (pre ++ (t1, Send note state) :: (t2, Send n2 s2) :: post, exit) /\
          (t1 == t2)%Q /\
          (pre = [] \/ pre = [(now, Sleep delay)]))) /\
  (Playback.queue st = [] ->
   Playback.iteration st = ([Sleep (1 # 1000)], st)) /\
  (forall fuel stop_at now trace exit,
     Playback.run fuel stop_at now st = (trace, Some exit) ->
     exists polls,
       trace
       = fst (fst (drained now (Playback.last_time st) (Playback.queue st)))
         ++ polls /\
       Forall (fun ta => snd ta = Sleep (1 # 1000)) polls /\
       Forall (fun ta => forall d, snd ta = Sleep d -> (0 < d)%Q)
              (fst (fst (drained now (Playback.last_time st)
                           (Playback.queue st))))).
Proof.
  destruct st as [q last]. cbn [Playback.queue Playback.last_time].
  split; [|split].
  - intros ts note state rest ->. set (delay := float_sub ts last).
    assert (Hit : Playback.iteration
                    {| Playback.queue := (ts, note, state) :: rest;
                       Playback.last_time := last |}
                  = ((if Playback.positive delay then [Sleep delay] else [])
                     ++ [Send note state],
                     {| Playback.queue := rest; Playback.last_time := ts |}))
      by reflexivity.
    rewrite Hit. cbn [fst snd].
    split; [|split; [|split; [|split]]].
    + intros Hd. apply positive_iff in Hd. now rewrite Hd.
    + intros Hd. apply positive_false_iff in Hd. now rewrite Hd.
    + apply float_sub_positive.
    + reflexivity.
    + intros ts2 n2 s2 rest2 fuel stop_at now -> Heq.
      assert (Hno : Playback.positive (float_sub ts2 ts) = false).
      { apply positive_false_iff. apply Qnot_lt_le. intros Hpos.
        apply (proj1 (float_sub_positive ts2 ts)) in Hpos.
        rewrite Heq in Hpos. now apply Qlt_irrefl in Hpos. }
      assert (Hit2 : Playback.iteration
                       {| Playback.queue := (ts2, n2, s2) :: rest2;
                          Playback.last_time := ts |}
                     = ([Send n2 s2],
                        {| Playback.queue := rest2;
                           Playback.last_time := ts2 |})).
      { unfold Playback.iteration. cbn [Playback.queue Playback.last_time].
        now rewrite Hno. }
      split; [now rewrite Hit2|].
      cbn [Playback.run Playback.queue negb]. rewrite orb_true_r, Hit.
      cbn [Playback.run Playback.queue negb]. rewrite orb_true_r, Hit2.
      destruct (Playback.run fuel stop_at _ _) as [post exit].
      destruct (Playback.positive delay);
        cbn [app Playback.elapse Playback.duration].
      * exists [(now, Sleep delay)], (now + delay)%Q,
          (now + (delay + 0))%Q, post, exit.
        split; [reflexivity|]. split; [lra|now right].
      * exists [], now, (now + 0)%Q, post, exit.
        split; [reflexivity|]. split; [lra|now left].
  - intros ->. reflexivity.
  - intros fuel stop_at now trace exit Hrun.
    destruct (run_finished_trace _ _ _ _ _ _ _ Hrun) as (polls & Ht & Hp).
    exists polls. split; [exact Ht|]. split; [exact Hp|].
    apply drained_sleeps.
Qed.

(** C6 as stated fails: an iteration that finds the queue empty sleeps
    although no delay was computed, and a run reaches such an iteration as
    soon as its queue is empty while the flag is still set. *)
Lemma idle_wait_counterexample :
  ~ (forall st d,
       In (Sleep d) (fst (Playback.iteration st)) ->
       exists ts note state rest,
         Playback.queue st = (ts, note, state) :: rest /\
         (0 < float_sub ts (Playback.last_time st))%Q) /\
  exists trace exit,
    Playback._play_notes 3 (1 # 1000) [(0%Q, 60, ON)] = (trace, Some exit) /\
    map snd trace = [Send 60 ON; Sleep (1 # 1000)].
Proof.
  split.
  - intros H.
    destruct (H {| Playback.queue := []; Playback.last_time := 0%Q |}
                (1 # 1000)%Q (or_introl eq_refl))
      as (ts & note & state & rest & Hq & _).
    discriminate Hq.
  - eexists. eexists. split; [vm_compute; reflexivity|reflexivity].
Qed.

(** The loop runs [while self.playing or self.note_queue]: whenever
    [stop()] clears the flag, the loop is left, with enough fuel, only after
    every queued entry was sent, once and in queue order; it is not left
    before [stop()] is called; [stop()] returns after the one-second join
    timeout at the latest; and when the loop was left within that timeout
    every send is in front of the return of [stop()]. *)
Lemma stop_lets_the_queue_drain (q : list Entry) (stop_at : Q) :
  exists fuel trace exit,
    Playback._play_notes fuel stop_at q = (trace, Some exit) /\
    map sent (Playback.sends trace) = map queued q /\
    (stop_at <= exit)%Q /\
    Forall (fun x => (timestamp x <= exit)%Q) (Playback.sends trace) /\
    (Playback.stop_returns stop_at exit <= stop_at + 1)%Q /\
    ((exit <= stop_at + 1)%Q ->
     Forall (fun x => (timestamp x <= Playback.stop_returns stop_at exit)%Q)
            (Playback.sends trace)).
Proof.
  destruct (drained 0 0 q) as [[tr now'] last'] eqn:Hd.
  destruct (enough_polls (stop_at - now')) as [n Hn].
  destruct (run_idle stop_at last' n now') as (tr2 & exit & Hrun & Hs);
    [lra|].
  assert (Hfull : Playback._play_notes (length q + S n) stop_at q
                  = (tr ++ tr2, Some exit)).
  { unfold Playback._play_notes. now rewrite run_drained, Hd, Hrun. }
  exists (length q + S n)%nat, (tr ++ tr2), exit.
  destruct (run_bounds _ _ _ _ _ _ Hfull) as (Hstop & _ & Hall).
  assert (Hsends : Forall (fun x => (timestamp x <= exit)%Q)
                          (Playback.sends (tr ++ tr2))).
  { apply (sends_bound (fun t => (t <= exit)%Q)).
    eapply Forall_impl; [|exact Hall]. now intros ta [_ H]. }
  split; [exact Hfull|]. split.
  { rewrite sends_app, Hs, app_nil_r.
    pose proof (drained_sends q 0 0) as Hq. now rewrite Hd in Hq. }
  split; [exact Hstop|]. split; [exact Hsends|].
  unfold Playback.stop_returns.
  destruct (Qle_bool exit stop_at) eqn:E1.
  - apply Qle_bool_iff in E1. split; [lra|]. intros _.
    eapply Forall_impl; [|exact Hsends]. intros x Hx. cbv beta in *. lra.
  - destruct (Qle_bool exit (stop_at + 1)) eqn:E2.
    + apply Qle_bool_iff in E2. split; [exact E2|]. intros _. exact Hsends.
    + split; [apply Qle_refl|]. intros H. apply Qle_bool_iff in H. congruence.
Qed.



(** ** Beyond the claims: the timing of the playback *)

Lemma serial_run_same stop_at fuel : forall now st,
  SerialPlayback.run fuel stop_at now st = Playback.run fuel stop_at now st.
Proof.
  induction fuel as [|fuel IH]; intros now st; [reflexivity|].
  cbn [SerialPlayback.run Playback.run].
  change (SerialPlayback.iteration st) with (Playback.iteration st).
  destruct (Playback.iteration st) as [acts st'].
  now rewrite IH.
Qed.

(** X12. The playback loop of the serial program does what that of the
    console program does: from the same queue and with [stop()] at the same
    time it performs the same sleeps and the same sends at the same clock,
    and is left at the same time. *)
Theorem serial_play_notes_same (fuel : nat) (stop_at : Q) (q : list Entry) :
  SerialPlayback._play_notes fuel stop_at q
  = Playback._play_notes fuel stop_at q.
Proof.
  unfold SerialPlayback._play_notes, Playback._play_notes.
  apply serial_run_same.
Qed.

(** A loop that was left has sent what the iterations over its queue send. *)
Lemma run_finished stop_at fuel : forall now q last trace exit,
  Playback.run fuel stop_at now
    {| Playback.queue := q; Playback.last_time := last |}
  = (trace, Some exit) ->
  Playback.sends trace
  = Playback.sends (fst (fst (drained now last q))).
Proof.
  induction fuel as [|fuel IH]; intros now q last trace exit; [discriminate|].
  cbn [Playback.run Playback.queue].
  destruct q as [|[[ts n] s] rest].
  - cbn [negb drained fst]. rewrite orb_false_r.
    destruct (Playback.playing_at stop_at now).
    + unfold Playback.iteration. cbn [Playback.queue].
      destruct (Playback.run fuel stop_at _ _) as [trace' exit'] eqn:Hrun.
      intros H. injection H as <- ->.
      change (Playback.sends ((now, Sleep (1 # 1000)) :: trace'))
        with (Playback.sends trace').
      now rewrite (IH _ _ _ _ _ Hrun).
    + intros H. injection H as <- _. reflexivity.
  - cbn [negb]. rewrite orb_true_r. cbn [drained].
    unfold Playback.iteration. cbn [Playback.queue Playback.last_time].
    destruct (Playback.run fuel stop_at _ _) as [trace' exit'] eqn:Hrun.
    intros H. injection H as <- ->.
    apply IH in Hrun.
    destruct (drained _ ts rest) as [[tr now'] last'].
    cbn [fst] in *. now rewrite !sends_app, Hrun.
Qed.

Lemma ulp53_small : (0 < ulp53 /\ ulp53 < 1)%Q.
Proof. split; reflexivity. Qed.

Lemma drained_not_early q : forall now last reach,
  (last <= reach)%Q -> (0 <= reach)%Q -> (reach * (1 - ulp53) <= now)%Q ->
  Forall2 not_early (Playback.sends (fst (fst (drained now last q)))) q.
Proof.
  pose proof ulp53_small as [Hu0 Hu1].
  induction q as [|[[ts n] s] rest IH]; intros now last reach Hl Hr Hn;
    [constructor|].
  cbn [drained]. unfold Playback.iteration.
  cbn [Playback.queue Playback.last_time].
  destruct (Playback.positive (float_sub ts last)) eqn:Hp.
  - apply positive_iff in Hp.
    pose proof (proj1 (float_sub_positive ts last) Hp) as Hlt.
    pose proof (float_sub_error ts last Hlt) as [Hlo _].
    specialize (IH (now + Playback.duration
                      ([Sleep (float_sub ts last)] ++ [Send n s]))%Q
                  ts (reach + (ts - last))%Q).
    destruct (drained _ ts rest) as [[tr now'] last'].
    cbn [fst] in *. rewrite sends_app.
    cbn [app Playback.elapse Playback.sends flat_map snd fst Playback.duration]
      in *.
    constructor.
    + split; [reflexivity|]. unfold timestamp. cbn [fst]. nra.
    + apply IH; nra.
  - apply positive_false_iff in Hp.
    assert (Hle : (ts <= last)%Q).
    { apply Qnot_lt_le. intros Hlt.
      apply (proj2 (float_sub_positive ts last)) in Hlt. lra. }
    specialize (IH (now + Playback.duration ([] ++ [Send n s]))%Q ts reach).
    destruct (drained _ ts rest) as [[tr now'] last'].
    cbn [fst] in *. rewrite sends_app.
    cbn [app Playback.elapse Playback.sends flat_map snd fst Playback.duration]
      in *.
    constructor.
    + split; [reflexivity|]. unfold timestamp. cbn [fst]. nra.
    + apply IH; lra.
Qed.

Lemma drained_on_time q : forall now last,
  (0 <= last)%Q ->
  (last * (1 - ulp53) <= now /\ now <= last * (1 + ulp53))%Q ->
  StronglySorted (key_le timestamp) q ->
  Forall (fun e => (last <= timestamp e)%Q) q ->
  Forall2 on_time (Playback.sends (fst (fst (drained now last q)))) q.
Proof.
  pose proof ulp53_small as [Hu0 Hu1].
  induction q as [|[[ts n] s] rest IH]; intros now last Hl [Hn1 Hn2] Hs Hlow;
    [constructor|].
  inversion Hs as [|? ? Hs' Hhead]; subst.
  inversion Hlow as [|? ? Hts _]; subst.
  unfold timestamp in Hts. cbn [fst] in Hts.
  cbn [drained]. unfold Playback.iteration.
  cbn [Playback.queue Playback.last_time].
  destruct (Playback.positive (float_sub ts last)) eqn:Hp.
  - apply positive_iff in Hp.
    pose proof (proj1 (float_sub_positive ts last) Hp) as Hlt.
    pose proof (float_sub_error ts last Hlt) as [Hlo Hhi].
    specialize (IH (now + Playback.duration
                      ([Sleep (float_sub ts last)] ++ [Send n s]))%Q ts).
    destruct (drained _ ts rest) as [[tr now'] last'].
    cbn [fst] in *. rewrite sends_app.
    cbn [app Playback.elapse Playback.sends flat_map snd fst Playback.duration]
      in *.
    constructor.
    + split; [reflexivity|]. unfold timestamp. cbn [fst]. split; nra.
    + apply IH; [lra|split; nra|exact Hs'|exact Hhead].
  - apply positive_false_iff in Hp.
    assert (Hle : (ts <= last)%Q).
    { apply Qnot_lt_le. intros Hlt.
      apply (proj2 (float_sub_positive ts last)) in Hlt. lra. }
    specialize (IH (now + Playback.duration ([] ++ [Send n s]))%Q ts).
    destruct (drained _ ts rest) as [[tr now'] last'].
    cbn [fst] in *. rewrite sends_app.
    cbn [app Playback.elapse Playback.sends flat_map snd fst Playback.duration]
      in *.
    constructor.
    + split; [reflexivity|]. unfold timestamp. cbn [fst]. split; nra.
    + apply IH; [lra|split; nra|exact Hs'|exact Hhead].
Qed.

(** X2. On the clock of the model, a playback loop that was left has sent
    every entry of its queue, in queue order, whatever the order of the
    queue, and none of them before its time, up to the rounding of the
    delays: the clock of a send is at least the entry's time less one part
    in [2^53]. *)
Theorem no_entry_is_sent_early
  (fuel : nat) (stop_at : Q) (q : list Entry)
  (trace : list (Q * Action)) (exit : Q) :
  Playback._play_notes fuel stop_at q = (trace, Some exit) ->
  Forall2 not_early (Playback.sends trace) q.
Proof.
  unfold Playback._play_notes. intros Hrun.
  rewrite (run_finished _ _ _ _ _ _ _ Hrun).
  apply (drained_not_early q 0 0 0)%Q; unfold ulp53; lra.
Qed.

Lemma no_entry_is_sent_early_witness :
  Forall2 not_early
    [(0%Q, 60, ON); ((0 + 0 + (5 - 0 + 0))%Q, 60, OFF)]
    [(0%Q, 60, ON); (5%Q, 60, OFF)].
Proof.
  exact (no_entry_is_sent_early 3 1 [(0%Q, 60, ON); (5%Q, 60, OFF)]
           [(0%Q, Send 60 ON); (0%Q, Sleep (5 - 0));
            ((0 + 0 + (5 - 0 + 0))%Q, Send 60 OFF)]
           (0 + 0 + (5 - 0 + 0))%Q eq_refl).
Defined.

(** X3. When the queue is in ascending order of time and no time is
    negative, a playback loop that was left has sent every entry at its
    time, up to the rounding of the delays: the clock of a send and the
    entry's time differ by at most one part in [2^53] of that time. *)
Theorem sorted_queue_is_sent_on_time
  (fuel : nat) (stop_at : Q) (q : list Entry)
  (trace : list (Q * Action)) (exit : Q) :
  StronglySorted (key_le timestamp) q ->
  Forall (fun e => (0 <= timestamp e)%Q) q ->
  Playback._play_notes fuel stop_at q = (trace, Some exit) ->
  Forall2 on_time (Playback.sends trace) q.
Proof.
  unfold Playback._play_notes. intros Hs Hpos Hrun.
  rewrite (run_finished _ _ _ _ _ _ _ Hrun).
  apply drained_on_time; [apply Qle_refl|split; lra|exact Hs|exact Hpos].
Qed.

Lemma sorted_queue_is_sent_on_time_witness :
  Forall2 on_time
    [((3602879701896397 # 36028797018963968)%Q, 60, ON);
     ((194711132195056046878532718034944
       # 649037107316853453566312041152512)%Q, 60, OFF)]
    [((1 # 10)%Q, 60, ON); ((3 # 10)%Q, 60, OFF)].
Proof.
  refine (sorted_queue_is_sent_on_time 3 (1 # 10)
            [((1 # 10)%Q, 60, ON); ((3 # 10)%Q, 60, OFF)]
            [(0%Q, Sleep (3602879701896397 # 36028797018963968));
             ((3602879701896397 # 36028797018963968)%Q, Send 60 ON);
             ((3602879701896397 # 36028797018963968)%Q,
              Sleep (3602879701896397 # 18014398509481984));
             ((194711132195056046878532718034944
               # 649037107316853453566312041152512)%Q, Send 60 OFF)]
            (194711132195056046878532718034944
             # 649037107316853453566312041152512)%Q _ _ _).
  - repeat constructor. unfold key_le. cbn. lra.
  - repeat constructor; unfold timestamp; cbn; lra.
  - vm_compute. reflexivity.
Defined.

(** ** Beyond the claims: what a load leaves, and when playback starts *)

Lemma sorted_of_ascending {A : Type} (key : A -> Q) (l : list A) :
  StronglySorted (key_le key) l -> sorted key l = l.
Proof.
  intros Hs. symmetry. now apply sorted_unique.
Qed.

Lemma extracted_pitches mid :
  map pitch (extracted mid)
  = filter in_range (map note_of (note_messages mid)).
Proof. unfold extracted, note_messages. apply file_entries_pitch. Qed.

Lemma kept_note_iff mid n :
  In n (filter in_range (map note_of (note_messages mid)))
  <-> exists track msg,
        In track (tracks mid) /\ In msg track /\
        is_note msg = true /\ note_of msg = n /\ 24 <= n <= 108.
Proof.
  rewrite filter_In, in_map_iff. unfold note_messages, in_range.
  rewrite andb_true_iff, !Z.leb_le. split.
  - intros [(msg & Hn & Hin) Hr]. apply filter_In in Hin as [Hin Hnote].
    apply in_concat in Hin as (track & Htr & Hmsg).
    exists track, msg. repeat split; auto; lia.
  - intros (track & msg & Htr & Hmsg & Hnote & Hn & Hr). split; [|lia].
    exists msg. split; [exact Hn|]. apply filter_In. split; [|exact Hnote].
    apply in_concat. now exists track.
Qed.

Lemma extracted_nonempty_iff mid :
  extracted mid <> []
  <-> exists track msg,
        In track (tracks mid) /\ In msg track /\
        is_note msg = true /\ 24 <= note_of msg <= 108.
Proof.
  split.
  - intros Hne.
    destruct (extracted mid) as [|e l] eqn:He; [congruence|].
    assert (Hin : In (pitch e)
                     (filter in_range (map note_of (note_messages mid)))).
    { rewrite <- extracted_pitches, He. now left. }
    apply kept_note_iff in Hin as (track & msg & H1 & H2 & H3 & H4 & H5).
    exists track, msg. rewrite H4. auto.
  - intros (track & msg & H1 & H2 & H3 & H4) He.
    assert (Hin : In (note_of msg)
                     (filter in_range (map note_of (note_messages mid)))).
    { apply kept_note_iff. exists track, msg. auto. }
    rewrite <- extracted_pitches, He in Hin. exact Hin.
Qed.

(** X1. The main program starts the playback thread exactly when the file
    exists, is decoded, is loaded without an exception and holds at least
    one note message with a pitch from 24 to 108.  In every other case
    [play()] is not reached or returns without setting the flag, and no
    thread is created. *)
Theorem main_starts_playback_iff (file : FileOnDisk) :
  (Console.playing (main_start file) = true
   <-> exists mid,
         file = Decoded mid /\ ~ raises_somewhere mid /\
         exists track msg,
           In track (tracks mid) /\ In msg track /\
           is_note msg = true /\ 24 <= note_of msg <= 108) /\
  Console.thread (main_start file) = Console.playing (main_start file).
Proof.
  unfold main_start. destruct file as [| |mid]; cbn [Console.load_midi].
  - split; [|reflexivity]. split; [discriminate|].
    intros (mid & H & _). discriminate.
  - split; [|reflexivity]. split; [discriminate|].
    intros (mid & H & _). discriminate.
  - change (match Console.try_block mid (Console.note_queue Console.init) with
            | (Ok v, q) => _ | (Raise _, q) => _ end)
      with (Console.load_midi (Decoded mid) Console.init).
    rewrite load_midi_eq. pose proof (file_fails_iff mid) as Hiff.
    destruct (file_fails mid) eqn:Hf; cbn [Console.returned].
    + split; [|reflexivity]. split; [discriminate|].
      intros (mid' & Heq & Hno & _). injection Heq as <-. tauto.
    + cbn [Console.note_queue Console.init app].
      pose proof (sorted_perm timestamp (extracted mid)) as Hperm.
      pose proof (extracted_nonempty_iff mid) as Hne.
      unfold Playback.play. cbn [Console.note_queue].
      destruct (sorted timestamp (extracted mid)) as [|e l] eqn:Hs;
        cbn [Console.playing Console.thread].
      * apply Permutation_sym, Permutation_nil in Hperm.
        split; [|reflexivity]. split; [discriminate|].
        intros (mid' & Heq & _ & Hex). injection Heq as <-.
        apply Hne in Hex. congruence.
      * split; [|reflexivity]. split; [|reflexivity].
        intros _. exists mid. split; [reflexivity|]. split.
        -- intros Hr. apply Hiff in Hr. discriminate.
        -- apply Hne. intros He. rewrite He in Hperm.
           apply Permutation_nil in Hperm. discriminate.
Qed.

(** X5. After a successful load the valid counter is at least zero and at
    most the total counter, the queue is longer by exactly the valid
    counter, and the two counters differ by the number of note messages
    whose pitch is outside 24 to 108. *)
Theorem counters_account_for_the_queue
  (mid : MidiFile) (self self' : Console.MidiPlayer) (total valid : Z) :
  Console.load_midi (Decoded mid) self = (Console.Loaded total valid, self') ->
  0 <= valid <= total /\
  length (Console.note_queue self')
  = (length (Console.note_queue self) + Z.to_nat valid)%nat /\
  total - valid
  = Z.of_nat (length (filter (fun n => negb (in_range n))
                             (map note_of (note_messages mid)))).
Proof.
  intros Hload.
  destruct (load_midi_loaded _ _ _ _ _ Hload)
    as (mid' & Hmid & _ & Ht & Hval & Hqueue & _).
  injection Hmid as <-.
  assert (Hlen : length (extracted mid)
                 = length (filter in_range (map note_of (note_messages mid)))).
  { now rewrite <- extracted_pitches, length_map. }
  pose proof (filter_length in_range (map note_of (note_messages mid))) as Hsplit.
  rewrite length_map in Hsplit.
  unfold count_notes in Ht. fold (note_messages mid) in Ht.
  split; [lia|]. split; [|lia].
  rewrite Hqueue, Hval, Nat2Z.id.
  rewrite <- (Permutation_length (sorted_perm timestamp _)).
  apply length_app.
Qed.

Lemma counters_account_for_the_queue_witness :
  0 <= 2 <= 4 /\
  length [(0%Q, 24, ON); (0%Q, 108, ON)] = (length (@nil Entry) + Z.to_nat 2)%nat /\
  4 - 2
  = Z.of_nat (length (filter (fun n => negb (in_range n))
                             (map note_of (note_messages boundary_file)))).
Proof.
  exact (counters_account_for_the_queue boundary_file Console.init
           {| Console.note_queue := [(0%Q, 24, ON); (0%Q, 108, ON)];
              Console.playing := false; Console.thread := false |}
           4 2 eq_refl).
Defined.

(** X6. A successful load that keeps no note (its valid counter is zero)
    leaves a player whose queue is in ascending order of time, as an
    earlier load leaves it, exactly as it was. *)
Theorem load_without_notes_changes_nothing
  (mid : MidiFile) (self self' : Console.MidiPlayer) (total : Z) :
  StronglySorted (key_le timestamp) (Console.note_queue self) ->
  Console.load_midi (Decoded mid) self = (Console.Loaded total 0, self') ->
  self' = self.
Proof.
  intros Hs Hload.
  destruct (load_midi_loaded _ _ _ _ _ Hload)
    as (mid' & Hmid & _ & _ & Hval & Hqueue & Hp & Ht).
  injection Hmid as <-.
  assert (He : extracted mid = []).
  { destruct (extracted mid); [reflexivity|]. simpl in Hval. lia. }
  rewrite He, app_nil_r, (sorted_of_ascending _ _ Hs) in Hqueue.
  destruct self, self'. cbn in *. congruence.
Qed.

Lemma load_without_notes_changes_nothing_witness :
  {| Console.note_queue := [(0%Q, 60, ON); ((1 # 2)%Q, 60, OFF)];
     Console.playing := false; Console.thread := false |}
  = {| Console.note_queue := [(0%Q, 60, ON); ((1 # 2)%Q, 60, OFF)];
       Console.playing := false; Console.thread := false |}.
Proof.
  refine (load_without_notes_changes_nothing
            {| tracks := [[NoteOn 0 23 64; Other 10]];
               ticks_per_beat := 480; length_ok := true |}
            {| Console.note_queue := [(0%Q, 60, ON); ((1 # 2)%Q, 60, OFF)];
               Console.playing := false; Console.thread := false |}
            {| Console.note_queue := [(0%Q, 60, ON); ((1 # 2)%Q, 60, OFF)];
               Console.playing := false; Console.thread := false |}
            1 _ eq_refl).
  repeat constructor. unfold key_le. cbn. lra.
Defined.

(** ** Beyond the claims: a single track keeps its order *)

Lemma seconds_of_mono t1 t2 tempo tpb :
  t1 <= t2 -> 0 <= tempo -> 0 < tpb ->
  (seconds_of t1 tempo tpb <= seconds_of t2 tempo tpb)%Q.
Proof.
  intros Ht Hp Hb. unfold seconds_of, Qdiv.
  apply Qmult_le_compat_r.
  - apply Qmult_le_compat_r; [now rewrite <- Zle_Qle|].
    apply Qmult_le_0_compat; [|discriminate].
    change 0%Q with (inject_Z 0). now rewrite <- Zle_Qle.
  - apply Qinv_le_0_compat. change 0%Q with (inject_Z 0).
    rewrite <- Zle_Qle. lia.
Qed.

Lemma ticks_after_last before msg :
  ticks_after (before ++ [msg]) = ticks_after before + msg_time msg.
Proof.
  unfold ticks_after. induction before as [|m before IH]; simpl; lia.
Qed.

Lemma tempo_after_plain tempo0 msgs :
  no_tempo_change msgs -> tempo_after tempo0 msgs = tempo0.
Proof.
  intros H. apply tempo_after_no_change.
  eapply Forall_impl; [|exact H]. intros m Hm.
  destruct m; try reflexivity. now destruct (Hm time tempo).
Qed.

Lemma entry_of_cases tpb ticks tempo msg :
  entry_of tpb ticks tempo msg = []
  \/ exists n st,
       entry_of tpb ticks tempo msg
       = [(Qred (seconds_of ticks tempo tpb), n, st)].
Proof.
  unfold entry_of. destruct msg as [t n v|t n v|t tp|t]; auto;
    destruct (in_range n); eauto.
Qed.

Section SingleTrack.
Variables tpb tempo0 : Z.
Hypothesis tpb_pos : 0 < tpb.
Hypothesis tempo0_nonneg : 0 <= tempo0.

Lemma track_entries_lower rest : forall before,
  no_tempo_change before -> no_tempo_change rest ->
  Forall valid_msg rest ->
  Forall (fun e => (seconds_of (ticks_after before) tempo0 tpb
                    <= timestamp e)%Q)
         (track_entries tpb tempo0 before rest).
Proof.
  induction rest as [|m rest IH]; intros before Hb Hr Hv; [constructor|].
  inversion Hr as [|? ? Hm Hr']; subst.
  inversion Hv as [|? ? [Htime _] Hv']; subst.
  assert (Hsnoc : no_tempo_change (before ++ [m])).
  { apply Forall_app. split; [exact Hb|]. now constructor. }
  cbn [track_entries]. rewrite (tempo_after_plain _ _ Hsnoc).
  assert (Hstep : (seconds_of (ticks_after before) tempo0 tpb
                   <= seconds_of (ticks_after (before ++ [m])) tempo0 tpb)%Q).
  { apply seconds_of_mono; [rewrite ticks_after_last; lia| |]; assumption. }
  apply Forall_app. split.
  - destruct (entry_of_cases tpb (ticks_after (before ++ [m])) tempo0 m)
      as [->|(n & st & ->)]; [constructor|].
    constructor; [|constructor]. unfold timestamp. cbn [fst].
    now rewrite Qred_correct.
  - eapply Forall_impl; [|apply (IH _ Hsnoc Hr' Hv')].
    intros e He. cbv beta in *. lra.
Qed.

Lemma track_entries_ascending rest : forall before,
  no_tempo_change before -> no_tempo_change rest ->
  Forall valid_msg rest ->
  StronglySorted (key_le timestamp) (track_entries tpb tempo0 before rest).
Proof.
  induction rest as [|m rest IH]; intros before Hb Hr Hv; [constructor|].
  inversion Hr as [|? ? Hm Hr']; subst.
  inversion Hv as [|? ? _ Hv']; subst.
  assert (Hsnoc : no_tempo_change (before ++ [m])).
  { apply Forall_app. split; [exact Hb|]. now constructor. }
  cbn [track_entries]. rewrite (tempo_after_plain _ _ Hsnoc).
  destruct (entry_of_cases tpb (ticks_after (before ++ [m])) tempo0 m)
    as [->|(n & st & ->)]; cbn [app].
  - now apply IH.
  - constructor; [now apply IH|].
    eapply Forall_impl; [|apply (track_entries_lower _ _ Hsnoc Hr' Hv')].
    intros e He. unfold key_le, timestamp at 1. cbn [fst].
    now rewrite Qred_correct.
Qed.

End SingleTrack.

(** X7. A valid file with a single track and no set-tempo message, loaded
    into a new player: sorting changes nothing, so the timeline holds the
    in-range notes in the order of their messages in the track. *)
Theorem single_track_keeps_file_order
  (mid : MidiFile) (self self' : Console.MidiPlayer) (total valid : Z)
  (track : Track) :
  valid_file mid ->
  tracks mid = [track] ->
  no_tempo_change track ->
  Console.note_queue self = [] ->
  Console.load_midi (Decoded mid) self = (Console.Loaded total valid, self') ->
  Console.note_queue self' = extracted mid /\
  map pitch (Console.note_queue self')
  = filter in_range (map note_of (filter is_note track)).
Proof.
  intros [Hb Hv] Htracks Hplain Hq Hload.
  destruct (load_midi_loaded _ _ _ _ _ Hload)
    as (mid' & Hmid & _ & _ & _ & Hqueue & _).
  injection Hmid as <-. rewrite Hq in Hqueue. cbn [app] in Hqueue.
  assert (Hasc : StronglySorted (key_le timestamp) (extracted mid)).
  { unfold extracted. rewrite Htracks in *. cbn [file_entries concat].
    rewrite app_nil_r.
    apply track_entries_ascending;
      [exact Hb|cbn; lia|constructor|exact Hplain|now inversion Hv]. }
  rewrite (sorted_of_ascending _ _ Hasc) in Hqueue.
  split; [exact Hqueue|].
  rewrite Hqueue, extracted_pitches. unfold note_messages.
  rewrite Htracks. cbn [concat]. now rewrite app_nil_r.
Qed.

Lemma single_track_keeps_file_order_witness :
  [(0%Q, 60, ON); ((1 # 2)%Q, 60, OFF)]
  = extracted {| tracks := [[NoteOn 0 60 64; NoteOff 480 60 0]];
                 ticks_per_beat := 480; length_ok := true |} /\
  map pitch [(0%Q, 60, ON); ((1 # 2)%Q, 60, OFF)]
  = filter in_range
      (map note_of (filter is_note [NoteOn 0 60 64; NoteOff 480 60 0])).
Proof.
  refine (single_track_keeps_file_order
            {| tracks := [[NoteOn 0 60 64; NoteOff 480 60 0]];
               ticks_per_beat := 480; length_ok := true |}
            Console.init
            {| Console.note_queue := [(0%Q, 60, ON); ((1 # 2)%Q, 60, OFF)];
               Console.playing := false; Console.thread := false |}
            2 2 [NoteOn 0 60 64; NoteOff 480 60 0] _ eq_refl _ eq_refl eq_refl).
  - split; [reflexivity|]. repeat constructor; cbn; lia.
  - repeat constructor; discriminate.
Defined.

(** ** Beyond the claims: the sinks *)

Lemma to_int_proper n :
  Z.to_int n <> Decimal.Pos Decimal.Nil /\ Z.to_int n <> Decimal.Neg Decimal.Nil.
Proof.
  destruct n as [|p|p]; cbn; split; try discriminate;
    intros H; injection H as H;
    now apply DecimalPos.Unsigned.to_uint_nonnil in H.
Qed.

Lemma decimal_inj n m : Text.decimal n = Text.decimal m -> n = m.
Proof.
  unfold Text.decimal. intros H.
  apply (f_equal DecimalString.NilZero.int_of_string) in H.
  destruct (to_int_proper n) as [Hn1 Hn2], (to_int_proper m) as [Hm1 Hm2].
  rewrite !DecimalString.NilZero.isi in H by assumption.
  injection H as H. now apply DecimalZ.to_int_inj.
Qed.

Lemma append_last_inj (a b : String.string) (c : Ascii.ascii) :
  String.append a (String.String c String.EmptyString)
  = String.append b (String.String c String.EmptyString) ->
  a = b.
Proof.
  revert b. induction a as [|x a IH]; intros [|y b] H; cbn in H.
  - reflexivity.
  - injection H as _ H. destruct b; discriminate.
  - injection H as _ H. destruct a; discriminate.
  - injection H as -> H. f_equal. now apply IH.
Qed.

(** X10. The command sent to the port determines the note: two notes with
    the same command are the same note. *)
Theorem command_determines_the_note (n m : Z) :
  SerialSink.command n = SerialSink.command m -> n = m.
Proof.
  unfold SerialSink.command, Text.carriage_return. intros H.
  cbn [String.append] in H. injection H as H.
  apply decimal_inj. eapply append_last_inj. exact H.
Qed.

Lemma command_determines_the_note_witness : 60 = 60.
Proof.
  exact (command_determines_the_note 60 60 eq_refl).
Defined.

(** X11. The line printed by the console sink determines both the state
    and the note. *)
Theorem console_line_determines_the_event (n m : Z) (s s' : State) :
  ConsoleSink._send_note n s = ConsoleSink._send_note m s' ->
  n = m /\ s = s'.
Proof.
  unfold ConsoleSink._send_note, ConsoleSink.line. intros H.
  injection H as H.
  destruct s, s'; cbn [Text.state_text String.append] in H;
    try discriminate; injection H as H;
    (split; [now apply decimal_inj|reflexivity]).
Qed.

Lemma console_line_determines_the_event_witness : 60 = 60 /\ OFF = OFF.
Proof.
  exact (console_line_determines_the_event 60 60 OFF OFF eq_refl).
Defined.

Lemma on_notes_of_sends (l : list (Q * Z * State)) (q : list Entry) :
  map sent l = map queued q -> on_notes l = on_notes q.
Proof.
  revert q. induction l as [|[[t n] s] l IH]; intros [|[[t' n'] s'] q] H;
    try discriminate; [reflexivity|].
  cbn in H. injection H as -> -> H.
  unfold on_notes in *. cbn [flat_map edge pitch fst snd].
  now rewrite (IH _ H).
Qed.

Lemma finished_sends fuel stop_at q trace exit :
  Playback._play_notes fuel stop_at q = (trace, Some exit) ->
  map sent (Playback.sends trace) = map queued q.
Proof.
  unfold Playback._play_notes. intros Hrun.
  rewrite (run_finished _ _ _ _ _ _ _ Hrun). apply drained_sends.
Qed.


Lemma serial_outputs_closed self ok sent_list : forall k,
  Serial.ser self = false ->
  serial_outputs self ok k sent_list
  = map (fun n => Print (SerialSink.fallback n)) (on_notes sent_list).
Proof.
  intros k Hser. revert k.
  induction sent_list as [|[[t n] s] l IH]; intros k; [reflexivity|].
  cbn [serial_outputs fst snd]. rewrite IH.
  unfold SerialSink._send_note. rewrite Hser.
  unfold on_notes. cbn [flat_map edge pitch fst snd].
  destruct s; reflexivity.
Qed.



(** X9. Without an open connection, and so after [close()], the serial
    player never writes to the port: a playback loop that was left has
    printed the line ["ON <note>"] for every [ON] entry of the queue, in
    queue order, and has done nothing else. *)
Theorem no_connection_prints_instead
  (self : Serial.MidiPlayer) (ok : nat -> bool)
  (fuel : nat) (stop_at : Q) (q : list Entry)
  (trace : list (Q * Action)) (exit : Q) :
  SerialPlayback._play_notes fuel stop_at q = (trace, Some exit) ->
  (Serial.ser self = false ->
   serial_outputs self ok 0 (Playback.sends trace)
   = map (fun n => Print (SerialSink.fallback n)) (on_notes q)) /\
  serial_outputs (SerialSink.close self) ok 0 (Playback.sends trace)
  = map (fun n => Print (SerialSink.fallback n)) (on_notes q) /\
  written (serial_outputs (SerialSink.close self) ok 0 (Playback.sends trace))
  = [].
Proof.
  intros Hrun.
  unfold SerialPlayback._play_notes in Hrun. rewrite serial_run_same in Hrun.
  pose proof (on_notes_of_sends _ _ (finished_sends _ _ _ _ _ Hrun)) as Hon.
  assert (Hclosed : forall p, Serial.ser p = false ->
            serial_outputs p ok 0 (Playback.sends trace)
            = map (fun n => Print (SerialSink.fallback n)) (on_notes q)).
  { intros p Hp. rewrite <- Hon. now apply serial_outputs_closed. }
  split; [apply Hclosed|]. split; [now apply Hclosed|].
  rewrite (Hclosed (SerialSink.close self) eq_refl).
  unfold written. generalize (on_notes q). clear. intros l.
  induction l as [|n l IH]; [reflexivity|exact IH].
Qed.

Lemma no_connection_prints_instead_witness :
  let self := Serial.init None 115200 false in
  let sends := Playback.sends
                 [(0%Q, Send 60 ON); (0%Q, Sleep (5 - 0));
                  ((0 + 0 + (5 - 0 + 0))%Q, Send 60 OFF)] in
  let q := [(0%Q, 60, ON); (5%Q, 60, OFF)] in
  (Serial.ser self = false ->
   serial_outputs self (fun _ => false) 0 sends
   = map (fun n => Print (SerialSink.fallback n)) (on_notes q)) /\
  serial_outputs (SerialSink.close self) (fun _ => false) 0 sends
  = map (fun n => Print (SerialSink.fallback n)) (on_notes q) /\
  written (serial_outputs (SerialSink.close self) (fun _ => false) 0 sends)
  = [].
Proof.
  exact (no_connection_prints_instead
           (Serial.init None 115200 false) (fun _ => false)
           3 1 [(0%Q, 60, ON); (5%Q, 60, OFF)]
           [(0%Q, Send 60 ON); (0%Q, Sleep (5 - 0));
            ((0 + 0 + (5 - 0 + 0))%Q, Send 60 OFF)]
           (0 + 0 + (5 - 0 + 0))%Q eq_refl).
Defined.

(** X13. A playback loop of the console player that was left has printed
    one line for every entry of the queue, [ON] or [OFF], in queue order:
    the state followed by the note. *)
Theorem console_prints_every_entry
  (fuel : nat) (stop_at : Q) (q : list Entry)
  (trace : list (Q * Action)) (exit : Q) :
  Playback._play_notes fuel stop_at q = (trace, Some exit) ->
  console_outputs (Playback.sends trace)
  = map (fun e => Print (ConsoleSink.line (pitch e) (edge e))) q.
Proof.
  intros Hrun. pose proof (finished_sends _ _ _ _ _ Hrun) as Hs.
  revert Hs. generalize (Playback.sends trace). clear Hrun.
  intros l. revert q.
  induction l as [|[[t n] s] l IH]; intros [|[[t' n'] s'] q] H;
    try discriminate; [reflexivity|].
  cbn in H. injection H as -> -> H.
  unfold console_outputs in *. cbn [flat_map map fst snd pitch edge].
  unfold ConsoleSink._send_note at 1. cbn [app].
  now rewrite (IH _ H).
Qed.

Lemma console_prints_every_entry_witness :
  console_outputs
    (Playback.sends
       [(0%Q, Send 60 ON); (0%Q, Sleep (5 - 0));
        ((0 + 0 + (5 - 0 + 0))%Q, Send 60 OFF)])
  = map (fun e => Print (ConsoleSink.line (pitch e) (edge e)))
        [(0%Q, 60, ON); (5%Q, 60, OFF)].
Proof.
  exact (console_prints_every_entry 3 1 [(0%Q, 60, ON); (5%Q, 60, OFF)]
           [(0%Q, Send 60 ON); (0%Q, Sleep (5 - 0));
            ((0 + 0 + (5 - 0 + 0))%Q, Send 60 OFF)]
           (0 + 0 + (5 - 0 + 0))%Q eq_refl).
Defined.

Lemma serial_outputs_attempts self ok sent_list : forall k,
  Serial.ser self = true ->
  (length (written (serial_outputs self ok k sent_list))
   + reported (serial_outputs self ok k sent_list))%nat
  = length (on_notes sent_list) /\
  length (printed (serial_outputs self ok k sent_list))
  = length (written (serial_outputs self ok k sent_list)) /\
  incl (written (serial_outputs self ok k sent_list))
       (map SerialSink.command (on_notes sent_list)).
Proof.
  intros k Hser. revert k.
  induction sent_list as [|[[t n] s] l IH]; intros k.
  { repeat split. intros x []. }
  destruct (IH (S k)) as (IHn & IHp & IHi).
  cbn [serial_outputs fst snd]. unfold written, printed, reported in *.
  rewrite !flat_map_app, filter_app, !length_app.
  unfold SerialSink._send_note. rewrite Hser.
  unfold on_notes in *. cbn [flat_map edge pitch fst snd].
  destruct s; [|cbn [flat_map filter length app]; repeat split; auto].
  destruct (ok k); cbn [flat_map filter length app map];
    (split; [lia|]); (split; [lia|]).
  - intros x [<-|Hx]; [now left|right; now apply IHi].
  - intros x Hx. right. now apply IHi.
Qed.

(** X14. With an open connection, whether single writes succeed or raise,
    a playback loop of the serial player that was left has tried every [ON]
    entry of the queue exactly once: the commands written and the failures
    reported add up to the number of [ON] entries, a command is shown on the
    console only for a write that succeeded, and nothing but commands of
    [ON] entries of the queue reaches the port. *)
Theorem failed_write_costs_one_note
  (self : Serial.MidiPlayer) (ok : nat -> bool)
  (fuel : nat) (stop_at : Q) (q : list Entry)
  (trace : list (Q * Action)) (exit : Q) :
  Serial.ser self = true ->
  SerialPlayback._play_notes fuel stop_at q = (trace, Some exit) ->
  (length (written (serial_outputs self ok 0 (Playback.sends trace)))
   + reported (serial_outputs self ok 0 (Playback.sends trace)))%nat
  = length (on_notes q) /\
  length (printed (serial_outputs self ok 0 (Playback.sends trace)))
  = length (written (serial_outputs self ok 0 (Playback.sends trace))) /\
  incl (written (serial_outputs self ok 0 (Playback.sends trace)))
       (map SerialSink.command (on_notes q)).
Proof.
  intros Hser Hrun.
  unfold SerialPlayback._play_notes in Hrun. rewrite serial_run_same in Hrun.
  rewrite <- (on_notes_of_sends _ _ (finished_sends _ _ _ _ _ Hrun)).
  now apply serial_outputs_attempts.
Qed.

Lemma failed_write_costs_one_note_witness :
  let self := {| Serial.note_queue := []; Serial.playing := true;
                 Serial.thread := true; Serial.ser := true;
                 Serial.port := Some 0%nat; Serial.baudrate := 115200 |} in
  let ok := fun k => Nat.eqb k 1 in
  let sends := Playback.sends
                 [(0%Q, Send 60 ON); (0%Q, Send 64 ON)] in
  let q := [(0%Q, 60, ON); (0%Q, 64, ON)] in
  (length (written (serial_outputs self ok 0 sends))
   + reported (serial_outputs self ok 0 sends))%nat
  = length (on_notes q) /\
  length (printed (serial_outputs self ok 0 sends))
  = length (written (serial_outputs self ok 0 sends)) /\
  incl (written (serial_outputs self ok 0 sends))
       (map SerialSink.command (on_notes q)).
Proof.
  exact (failed_write_costs_one_note
           {| Serial.note_queue := []; Serial.playing := true;
              Serial.thread := true; Serial.ser := true;
              Serial.port := Some 0%nat; Serial.baudrate := 115200 |}
           (fun k => Nat.eqb k 1) 3 0 [(0%Q, 60, ON); (0%Q, 64, ON)]
           [(0%Q, Send 60 ON); (0%Q, Send 64 ON)]
           0%Q eq_refl eq_refl).
Defined.

(** The sinks at work on one note, as character codes: ["on 60"] and a
    carriage return, ["OFF60"], and what [print] shows of the command. *)
Example serial_command_60 :
  map Ascii.nat_of_ascii (String.list_ascii_of_string (SerialSink.command 60))
  = [111; 110; 32; 54; 48; 13]%nat.
Proof. reflexivity. Qed.

Example console_line_off_60 :
  map Ascii.nat_of_ascii (String.list_ascii_of_string (ConsoleSink.line 60 OFF))
  = [79; 70; 70; 54; 48]%nat.
Proof. reflexivity. Qed.

Example serial_shown_60 :
  map Ascii.nat_of_ascii (String.list_ascii_of_string (SerialSink.shown 60))
  = [98; 39; 111; 110; 32; 54; 48; 92; 114; 39]%nat.
Proof. reflexivity. Qed.
